(** * The entity-component-system of tgt (ecs.js): Entity, System, Scene

    A shallow embedding of the three classes of the ECS module and the
    properties of its membership bookkeeping.

    Objects live in a heap and are named by references, because the code
    shares them: a scene stores entities, a system stores the entities it
    matches and an entity stores the systems matching it, all by reference.
    A reference that was never written reads as the freshly constructed
    object ([new Entity()], [new System()], [new Scene()]).

    What user code supplies is kept abstract: a system's [test] is a pure
    predicate on the entity it is given, and the calls of [init], [exit]
    and of named hooks are recorded in a call log, each with the heap the
    callee sees; hooks return normally and leave the heap alone.

    The plain objects the classes use as maps inherit from
    [Object.prototype].  The maps below list an object's own properties;
    where a statement depends on a name not being one of the inherited
    ones, or on [__proto__] never having been assigned, it says so in a
    hypothesis ([ordinary], [PlainObject.plain], [Entity.plain],
    [hook_name]). *)

From Stdlib Require Import Ascii String.
From stdpp Require Import gmap strings list fin_maps pretty.

Open Scope string_scope.
Open Scope list_scope.

(** ** JavaScript values and completions *)

(** References to heap objects. *)
Abbreviation ref := nat (only parsing).

(** The data stored in the fields of a component instance. *)
Inductive value :=
| VUndefined
| VBoolean (b : bool)
| VNumber (z : Z)
| VString (s : string).

Inductive JsError := TypeError.

(** How a call ends: with a value, or with a thrown error. *)
Inductive Completion (A : Type) :=
| Normal (a : A)
| Throw (err : JsError).
Arguments Normal {A} a.
Arguments Throw {A} err.

(** ** Numbers used as counters

    [Scene._count] is a JavaScript number that starts at 0 and is only
    ever incremented.  Its values are the integers up to 2^53; one more
    rounds back to 2^53.  For these values [toString] is the decimal
    numeral. *)

Definition max_exact : N := 2 ^ 53.

Definition Number_increment (n : N) : N :=
  if (n <? max_exact)%N then (n + 1)%N else n.

Definition Number_toString (n : N) : string := pretty n.

(** ** Plain objects used as maps, with their property order

    [Scene._entities] is created as [{}] and enumerated with [for..in]:
    own keys that are array indices come first, in ascending numeric
    order, then the other keys in the order they were created.  The
    object is kept as the list of its properties in that order. *)

Definition digit_of (c : ascii) : option N :=
  let n := N_of_ascii c in
  if ((48 <=? n) && (n <=? 57))%N then Some (n - 48)%N else None.

Fixpoint parse_digits (acc : N) (s : string) : option N :=
  match s with
  | EmptyString => Some acc
  | String c s' =>
      match digit_of c with
      | Some d => parse_digits (acc * 10 + d)%N s'
      | None => None
      end
  end.

(** A key is an array index when it is the decimal numeral of an integer
    below 2^32 - 1. *)
Definition array_index (k : string) : option N :=
  match k with
  | EmptyString => None
  | _ =>
      match parse_digits 0 k with
      | Some n =>
          if bool_decide (Number_toString n = k) && (n <? 2 ^ 32 - 1)%N
          then Some n else None
      | None => None
      end
  end.

(** ** Names every object inherits

    The members of [Object.prototype].  [__proto__] is an accessor: read,
    it gives the object's prototype; assigned an object, it replaces the
    prototype and creates no property.  The others are functions, and
    assigning to one of them creates an own property like any other. *)

Definition Object_prototype_functions : list string :=
  ["constructor"; "__defineGetter__"; "__defineSetter__"; "hasOwnProperty";
   "__lookupGetter__"; "__lookupSetter__"; "isPrototypeOf"; "propertyIsEnumerable";
   "toString"; "valueOf"; "toLocaleString"].

Definition Object_prototype_names : list string :=
  "__proto__" :: Object_prototype_functions.

(** A name for which [o[name]] is [undefined] unless [o] has it as an own
    property. *)
Definition ordinary (name : string) : Prop := name ∉ Object_prototype_names.

(** Of the functions every system inherits, three throw when called as
    [system[funcName](entity, param)]: the class's [constructor], which
    must be called with [new], and the two accessor definers, whose
    second argument must be a function.  The hooks of a system are its
    other callable members. *)
Definition throwing_members : list string :=
  ["constructor"; "__defineGetter__"; "__defineSetter__"].

Definition hook_name (funcName : string) : Prop := funcName ∉ throwing_members.

Module PlainObject.

(** The own properties of the object, in [for..in] order. *)
Definition t := list (string * ref).

Definition empty : t := [].

(** [o[k]], for an own key or an [ordinary] one: [None] is [undefined]. *)
Fixpoint get (o : t) (k : string) : option ref :=
  match o with
  | [] => None
  | (k', v) :: o' => if bool_decide (k = k') then Some v else get o' k
  end.

(** Does the entry with key [k'] come after a new key [k]? *)
Definition comes_after (k k' : string) : bool :=
  match array_index k, array_index k' with
  | Some n, Some n' => (n <? n')%N
  | Some _, None => true
  | None, _ => false
  end.

(** Where a new key goes. *)
Fixpoint create (o : t) (k : string) (v : ref) : t :=
  match o with
  | [] => [(k, v)]
  | (k', v') :: o' =>
      if comes_after k k' then (k, v) :: o else (k', v') :: create o' k v
  end.

(** An existing key keeps its place. *)
Fixpoint overwrite (o : t) (k : string) (v : ref) : t :=
  match o with
  | [] => []
  | (k', v') :: o' =>
      if bool_decide (k = k') then (k, v) :: o' else (k', v') :: overwrite o' k v
  end.

(** [o[k] = v], for [k] other than [__proto__]. *)
Definition put (o : t) (k : string) (v : ref) : t :=
  match get o k with
  | Some _ => overwrite o k v
  | None => create o k v
  end.

(** The keys [for (let k in o)] visits, in order. *)
Definition keys (o : t) : list string := o.*1.

(** Nothing was assigned to [__proto__]: the object still inherits from
    [Object.prototype], which has nothing enumerable, and the list is
    what the object holds. *)
Definition plain (o : t) : Prop := get o "__proto__" = None.

End PlainObject.

(** ** The classes' data *)

(** A component is a class; [new component()] makes an instance with the
    fields its constructor sets, and [component.name] is the class name. *)
Module Component.
Record t := make { name : string; construct : gmap string value }.
End Component.

Module Entity.

Record t := make {
  id : string;                                   (* this.id *)
  _systems : list ref;                           (* this._systems *)
  _components : gmap string (gmap string value)  (* this._components *)
}.

Definition with_id (i : string) (this : t) : t :=
  make i (_systems this) (_components this).
Definition with_systems (l : list ref) (this : t) : t :=
  make (id this) l (_components this).
Definition with_components (c : gmap string (gmap string value)) (this : t) : t :=
  make (id this) (_systems this) c.

(** [add(component)] *)
Definition add (component : Component.t) (this : t) : t :=
  with_components
    (<[Component.name component := Component.construct component]> (_components this))
    this.

(** [constructor(...components)] *)
Definition new (components : list Component.t) : t :=
  foldl (λ this component, add component this) (make "" [] ∅) components.

(** [get(component)], for a component the entity holds or one with an
    [ordinary] name; [None] is [undefined]. *)
Definition get (component : Component.t) (this : t) : option (gmap string value) :=
  _components this !! Component.name component.

(** One turn of the loop of [set]: [this.get(component)[key] = v], for a
    [key] other than [__proto__]. *)
Definition set_key (component : Component.t) (key : string) (v : value)
    (acc : Completion t) : Completion t :=
  match acc with
  | Normal this =>
      match get component this with
      | Some instance =>
          Normal (with_components
                    (<[Component.name component := <[key := v]> instance]>
                       (_components this)) this)
      | None => Throw TypeError
      end
  | Throw err => Throw err
  end.

(** [set(component, data)] *)
Definition set (component : Component.t) (data : gmap string value) (this : t)
    : Completion t :=
  map_fold (set_key component) (Normal this) data.

(** [this._components[name] == undefined] is false: the entity holds an
    instance under that name, or the name is one every object inherits. *)
Definition defined (name : string) (this : t) : bool :=
  match _components this !! name with
  | Some _ => true
  | None => bool_decide (name ∈ Object_prototype_names)
  end.

(** [has(...components)] *)
Fixpoint has (components : list Component.t) (this : t) : bool :=
  match components with
  | [] => true
  | component :: rest =>
      if defined (Component.name component) this then has rest this else false
  end.

(** No component named [__proto__] was added: [_components] still
    inherits from [Object.prototype]. *)
Definition plain (this : t) : Prop := _components this !! "__proto__" = None.

End Entity.

Module System.

Record t := make {
  scene : option ref;            (* this.scene; [None] is null *)
  entities : list ref;           (* this.entities *)
  test : Entity.t → bool;        (* test(entity) *)
  is_function : string → bool    (* typeof this[name] === "function" *)
}.

Definition with_scene (s : option ref) (this : t) : t :=
  make s (entities this) (test this) (is_function this).
Definition with_entities (l : list ref) (this : t) : t :=
  make (scene this) l (test this) (is_function this).

(** [new System()]: the base class matches nothing; its callable members
    are [test], [init] and [exit] and the functions every object
    inherits. *)
Definition new : t :=
  make None [] (λ _, false)
       (λ name, bool_decide (name ∈ ["test"; "init"; "exit"] ++ Object_prototype_functions)).

End System.

Module Scene.

Record t := make {
  _entities : PlainObject.t;     (* this._entities *)
  _systems : list ref;           (* this._systems *)
  _count : N                     (* this._count *)
}.

Definition with_entities (o : PlainObject.t) (this : t) : t :=
  make o (_systems this) (_count this).
Definition with_systems (l : list ref) (this : t) : t :=
  make (_entities this) l (_count this).
Definition with_count (n : N) (this : t) : t :=
  make (_entities this) (_systems this) n.

(** [new Scene()] *)
Definition new : t := make PlainObject.empty [] 0.

End Scene.

#[global] Instance Entity_inhabited : Inhabited Entity.t := populate (Entity.new []).
#[global] Instance System_inhabited : Inhabited System.t := populate System.new.
#[global] Instance Scene_inhabited : Inhabited Scene.t := populate Scene.new.

(** ** The heap *)

Record Heap := MkHeap {
  entity_objects : gmap ref Entity.t;
  system_objects : gmap ref System.t;
  scene_objects : gmap ref Scene.t
}.

Definition entity_at (σ : Heap) (r : ref) : Entity.t := entity_objects σ !!! r.
Definition system_at (σ : Heap) (r : ref) : System.t := system_objects σ !!! r.
Definition scene_at (σ : Heap) (r : ref) : Scene.t := scene_objects σ !!! r.

Definition update_entity (r : ref) (f : Entity.t → Entity.t) (σ : Heap) : Heap :=
  MkHeap (<[r := f (entity_at σ r)]> (entity_objects σ))
         (system_objects σ) (scene_objects σ).
Definition update_system (r : ref) (f : System.t → System.t) (σ : Heap) : Heap :=
  MkHeap (entity_objects σ)
         (<[r := f (system_at σ r)]> (system_objects σ)) (scene_objects σ).
Definition update_scene (r : ref) (f : Scene.t → Scene.t) (σ : Heap) : Heap :=
  MkHeap (entity_objects σ) (system_objects σ)
         (<[r := f (scene_at σ r)]> (scene_objects σ)).

(** ** Calls into user code, and the monad of the methods *)

(** A call of a system's method, with the heap the callee sees. *)
Inductive Event :=
| EvTest (system entity : ref) (seen : Heap) (answer : bool)   (* system.test(entity) *)
| EvInit (system entity : ref) (seen : Heap)                   (* system.init(entity) *)
| EvExit (system entity : ref) (seen : Heap)                   (* system.exit(entity) *)
| EvHook (system : ref) (funcName : string) (entity : ref) (param : value)
         (seen : Heap).                                        (* system[funcName](entity, param) *)

(** What running a method gives: how it completed, the heap it left and
    the calls it made, oldest first. *)
Record Run (A : Type) := MkRun {
  completion : Completion A;
  heap_after : Heap;
  calls : list Event
}.
Arguments MkRun {A} _ _ _.
Arguments completion {A} _.
Arguments heap_after {A} _.
Arguments calls {A} _.

Definition M (A : Type) : Type := Heap → Run A.

#[global] Instance M_ret : MRet M := λ A a σ, MkRun (Normal a) σ [].

#[global] Instance M_bind : MBind M := λ A B k m σ,
  let r := m σ in
  match completion r with
  | Normal a =>
      let r' := k a (heap_after r) in
      MkRun (completion r') (heap_after r') (calls r ++ calls r')
  | Throw err => MkRun (Throw err) (heap_after r) (calls r)
  end.

Definition read {A} (f : Heap → A) : M A := λ σ, MkRun (Normal (f σ)) σ [].
Definition write (f : Heap → Heap) : M unit := λ σ, MkRun (Normal ()) (f σ) [].
Definition throw {A} (err : JsError) : M A := λ σ, MkRun (Throw err) σ [].

Definition call_test (system entity : ref) : M bool := λ σ,
  let answer := System.test (system_at σ system) (entity_at σ entity) in
  MkRun (Normal answer) σ [EvTest system entity σ answer].
Definition call_init (system entity : ref) : M unit := λ σ,
  MkRun (Normal ()) σ [EvInit system entity σ].
Definition call_exit (system entity : ref) : M unit := λ σ,
  MkRun (Normal ()) σ [EvExit system entity σ].
(** [system[funcName](entity, param)] for a [hook_name]: the call
    returns. *)
Definition call_hook (system : ref) (funcName : string) (entity : ref) (param : value)
    : M unit := λ σ,
  MkRun (Normal ()) σ [EvHook system funcName entity param σ].

(** A loop over the elements of an array or the keys of an object that
    the body does not resize, threading the loop's local variable. *)
Fixpoint fold_of {X A} (l : list X) (body : A → X → M A) (a : A) : M A :=
  match l with
  | [] => mret a
  | x :: l' => a' ← body a x; fold_of l' body a'
  end.

Definition for_of {X} (l : list X) (body : X → M unit) : M unit :=
  fold_of l (λ _ x, body x) ().

(** [array.push(x)] *)
Definition push {A} (x : A) (l : list A) : list A := l ++ [x].

(** [array.splice(start, 1)] *)
Definition splice_one {A} (start : Z) (l : list A) : list A :=
  let len := Z.of_nat (length l) in
  let from := Z.to_nat (if (start <? 0)%Z then Z.max (len + start) 0 else Z.min start len) in
  take from l ++ drop (S from) l.

(** ** Entity.dispatch *)

Definition Entity_dispatch (this : ref) (funcName : string) (param : value) : M unit :=
  systems ← read (λ σ, Entity._systems (entity_at σ this));
  for_of systems (λ system,
    callable ← read (λ σ, System.is_function (system_at σ system) funcName);
    if callable : bool then call_hook system funcName this param else mret ()).

(** ** Scene *)

Definition generateUID (this : ref) : M string :=
  count ← read (λ σ, Scene._count (scene_at σ this));
  write (update_scene this (Scene.with_count (Number_increment count)));;
  mret (Number_toString count).

(** [id] is [None] when the argument is missing ([id == undefined]). *)
Definition addEntity (this entity : ref) (id : option string) : M ref :=
  match id with
  | None =>
      uid ← generateUID this;
      write (update_entity entity (Entity.with_id uid))
  | Some id => write (update_entity entity (Entity.with_id id))
  end;;
  key ← read (λ σ, Entity.id (entity_at σ entity));
  write (update_scene this (λ scene,
    Scene.with_entities (PlainObject.put (Scene._entities scene) key entity) scene));;
  systems ← read (λ σ, Scene._systems (scene_at σ this));
  for_of systems (λ system,
    matches ← call_test system entity;
    if matches : bool then
      write (update_entity entity (λ e, Entity.with_systems (push system (Entity._systems e)) e));;
      write (update_system system (λ s, System.with_entities (push entity (System.entities s)) s));;
      call_init system entity
    else mret ());;
  mret entity.

(** Calling a method of the plain object [this._entities].  An own
    property of that name holds an entity, which is not callable; without
    one the lookup goes on to [Object.prototype], which defines neither
    [indexOf] nor [splice].  Either way the call throws. *)
Definition invoke_on_entities (this : ref) (method : string) : M Z :=
  o ← read (λ σ, Scene._entities (scene_at σ this));
  match PlainObject.get o method with
  | Some _ => throw TypeError
  | None => throw TypeError
  end.

(** [entity.scene = null] and [entity.systems = []] create two properties
    that nothing reads; they have no counterpart in [Entity.t]. *)
Definition removeEntity (this entity : ref) : M unit :=
  i ← invoke_on_entities this "indexOf";
  if bool_decide (i ≠ (-1)%Z) then
    systems ← read (λ σ, Entity._systems (entity_at σ entity));
    for_of systems (λ system,
      call_exit system entity;;
      write (update_system system (λ s,
        System.with_entities (splice_one i (System.entities s)) s)));;
    write (update_entity entity (Entity.with_id ""));;
    invoke_on_entities this "splice";;
    mret ()
  else mret ().

(** [None] is [undefined]. *)
Definition getEntity (this : ref) (id : string) : M (option ref) :=
  read (λ σ, PlainObject.get (Scene._entities (scene_at σ this)) id).

(** [this.getEntity(id)] for a key the enclosing [for..in] produced; the
    methods go on to use the result as an entity. *)
Definition entity_of_key (this : ref) (id : string) : M ref :=
  found ← getEntity this id;
  match found with
  | Some entity => mret entity
  | None => throw TypeError
  end.

(** The body reads [this.getEntity(id)] four times; the mapping is not
    written in between, so it is read once here. *)
Definition addSystem (this system : ref) : M unit :=
  write (update_scene this (λ scene,
    Scene.with_systems (push system (Scene._systems scene)) scene));;
  write (update_system system (System.with_scene (Some this)));;
  ids ← read (λ σ, PlainObject.keys (Scene._entities (scene_at σ this)));
  for_of ids (λ id,
    entity ← entity_of_key this id;
    matches ← call_test system entity;
    if matches : bool then
      write (update_system system (λ s, System.with_entities (push entity (System.entities s)) s));;
      write (update_entity entity (λ e, Entity.with_systems (push system (Entity._systems e)) e));;
      call_init system entity
    else mret ()).

Definition dispatch (this : ref) (funcName : string) (param : value) : M unit :=
  systems ← read (λ σ, Scene._systems (scene_at σ this));
  for_of systems (λ system,
    callable ← read (λ σ, System.is_function (system_at σ system) funcName);
    if callable : bool then
      entities ← read (λ σ, System.entities (system_at σ system));
      for_of entities (λ entity, call_hook system funcName entity param)
    else mret ()).

Definition query (this : ref) (components : list Component.t) : M (list ref) :=
  ids ← read (λ σ, PlainObject.keys (Scene._entities (scene_at σ this)));
  fold_of ids (λ matches id,
    entity ← entity_of_key this id;
    holds ← read (λ σ, Entity.has components (entity_at σ entity));
    if holds : bool then mret (push entity matches) else mret matches) [].

Definition addComponentToEntity (this entity : ref) (component : Component.t) : M unit :=
  write (update_entity entity (Entity.add component));;
  systems ← read (λ σ, Scene._systems (scene_at σ this));
  for_of systems (λ system,
    absent ← read (λ σ, bool_decide (entity ∉ System.entities (system_at σ system)));
    if absent : bool then
      matches ← call_test system entity;
      if matches : bool then
        write (update_system system (λ s, System.with_entities (push entity (System.entities s)) s));;
        write (update_entity entity (λ e, Entity.with_systems (push system (Entity._systems e)) e));;
        call_init system entity
      else mret ()
    else mret ()).

(** ** AssetManager

    The manager creates one [Image] per asset and listens for its [load]
    event.  Of an image the code uses [src], which it sets, and
    [complete], which the browser sets; images are named by their
    position in the list of the images created.  Whether an image is
    complete as soon as its [src] is set (an empty [src], an image the
    browser has already) is the browser's business: [available] says so
    for each [src].  Callbacks are opaque: the calls are logged, and a
    callback does not call back into the manager.  Asset names are
    ordinary property names. *)

Module Asset.
Record t := make { name : string; src : string }.
End Asset.

Module Image.
Record t := make { src : string; complete : bool }.
End Image.

(** [new Image()], before [src] is set, is complete. *)
#[global] Instance Image_inhabited : Inhabited Image.t := populate (Image.make "" true).

Module AssetManager.

Record t := make {
  images : list Image.t;       (* the Image objects created, each with the listener *)
  _images : PlainObject.t;     (* this._images: name to image *)
  _callbacks : list ref;       (* this._callbacks *)
  _hasLoaded : bool            (* this._hasLoaded *)
}.

Definition with_hasLoaded (b : bool) (this : t) : t :=
  make (images this) (_images this) (_callbacks this) b.

(** One turn of the constructor's loop: a new image under the asset's
    name, its [src] set. *)
Definition register (available : string → bool) (this : t) (asset : Asset.t) : t :=
  make (images this ++ [Image.make (Asset.src asset) (available (Asset.src asset))])
       (PlainObject.put (_images this) (Asset.name asset) (length (images this)))
       (_callbacks this) (_hasLoaded this).

(** [constructor(index)] *)
Definition new (available : string → bool) (index : list Asset.t) : t :=
  foldl (register available) (make [] PlainObject.empty [] false) index.

(** The loop of the listener over the names: [Normal true] when it runs
    to its end, [Normal false] when it returns early at an image that is
    not complete. *)
Fixpoint every_complete (this : t) (names : list string) : Completion bool :=
  match names with
  | [] => Normal true
  | name :: rest =>
      match PlainObject.get (_images this) name with
      | Some image =>
          if Image.complete (images this !!! image) then every_complete this rest
          else Normal false
      | None => Throw TypeError
      end
  end.

(** The listener of the [load] event: how it completes, the manager it
    leaves and the callbacks it calls, in order. *)
Definition on_load (this : t) : Completion unit * t * list ref :=
  match every_complete this (PlainObject.keys (_images this)) with
  | Normal true => (Normal (), with_hasLoaded true this, _callbacks this)
  | Normal false => (Normal (), with_hasLoaded false this, [])
  | Throw err => (Throw err, with_hasLoaded true this, [])
  end.

(** [onLoad(callback)]: the manager it leaves and the calls it makes. *)
Definition onLoad (callback : ref) (this : t) : t * list ref :=
  (make (images this) (_images this) (push callback (_callbacks this)) (_hasLoaded this),
   if _hasLoaded this then [callback] else []).

(** [get(name)]; [None] is [undefined]. *)
Definition get (name : string) (this : t) : option ref :=
  PlainObject.get (_images this) name.

End AssetManager.

(** What happens to a manager once constructed: the program registers a
    callback, the browser finishes loading an image, or the browser
    fires [load] on an image. *)
Inductive PageEvent :=
| Registers (callback : ref)
| Completes (image : ref)
| Loads (image : ref).

(** One event: the manager afterwards and the callbacks called.  A
    [load] event runs the listener when the image is one the manager
    created. *)
Definition page_step (this : AssetManager.t) (ev : PageEvent)
    : AssetManager.t * list ref :=
  match ev with
  | Registers callback => AssetManager.onLoad callback this
  | Completes image =>
      (AssetManager.make
         (alter (λ i, Image.make (Image.src i) true) image (AssetManager.images this))
         (AssetManager._images this) (AssetManager._callbacks this)
         (AssetManager._hasLoaded this), [])
  | Loads image =>
      if bool_decide (image < length (AssetManager.images this))
      then let '(_, this', called) := AssetManager.on_load this in (this', called)
      else (this, [])
  end.

(** A sequence of events, with all the calls made. *)
Fixpoint page_run (this : AssetManager.t) (evs : list PageEvent)
    : AssetManager.t * list ref :=
  match evs with
  | [] => (this, [])
  | ev :: rest =>
      let '(this1, called1) := page_step this ev in
      let '(this2, called2) := page_run this1 rest in
      (this2, called1 ++ called2)
  end.

(** Every image the manager has under a name is complete. *)
Definition all_complete (this : AssetManager.t) : Prop :=
  ∀ name image,
    AssetManager.get name this = Some image →
    Image.complete (AssetManager.images this !!! image) = true.

(** ** Worked scenes *)

Definition Position : Component.t := Component.make "Position" {[ "x" := VNumber 0; "y" := VNumber 0 ]}.

(** A system whose [test] is [entity.has(Position)]; it defines a hook
    [update]. *)
Definition MovementSystem : System.t :=
  System.make None [] (Entity.has [Position])
    (λ name, System.is_function System.new name || bool_decide (name = "update")).

(** A system that matches every entity; it defines the hooks [update]
    and [draw]. *)
Definition EverySystem : System.t :=
  System.make None [] (λ _, true)
    (λ name, System.is_function System.new name
             || bool_decide (name = "update") || bool_decide (name = "draw")).

(** A system whose [test] is [!entity.has(Position)]. *)
Definition StillSystem : System.t :=
  System.make None [] (λ e, negb (Entity.has [Position] e))
    (System.is_function System.new).

(** ** Vocabulary of the statements *)

(** The heap a call was made in. *)
Definition seen (ev : Event) : Heap :=
  match ev with
  | EvTest _ _ σ _ | EvInit _ _ σ | EvExit _ _ σ | EvHook _ _ _ _ σ => σ
  end.

(** The calls of [test] in a log, with their answers, and the calls of
    [init] and of [exit]. *)
Definition tests (L : list Event) : list (ref * ref * bool) :=
  omap (λ ev, match ev with EvTest s e _ b => Some (s, e, b) | _ => None end) L.
Definition inits (L : list Event) : list (ref * ref) :=
  omap (λ ev, match ev with EvInit s e _ => Some (s, e) | _ => None end) L.

Definition exits (L : list Event) : list (ref * ref) :=
  omap (λ ev, match ev with EvExit s e _ => Some (s, e) | _ => None end) L.

(** The tests that answered true. *)
Definition hits (T : list (ref * ref * bool)) : list (ref * ref) :=
  omap (λ t : ref * ref * bool, if t.2 then Some t.1 else None) T.

(** The entities a log initialises for system [s], and the systems that
    initialise entity [e]. *)
Definition matched_by (s : ref) (L : list Event) : list ref :=
  omap (λ p : ref * ref, if decide (p.1 = s) then Some p.2 else None) (inits L).
Definition members_of (e : ref) (L : list Event) : list ref :=
  omap (λ p : ref * ref, if decide (p.2 = e) then Some p.1 else None) (inits L).

(** Recording a fresh match in both membership arrays. *)
Definition link_heap (system entity : ref) (σ : Heap) : Heap :=
  update_system system (λ s, System.with_entities (push entity (System.entities s)) s)
    (update_entity entity (λ e, Entity.with_systems (push system (Entity._systems e)) e) σ).

(** The membership scan shared by [addEntity], [addSystem] and
    [addComponentToEntity], as a relation between the pairs (system,
    entity) visited, the heap before and after, and the calls made.  A
    guarded scan skips the pairs that are already recorded. *)
Inductive Scan (guarded : bool) : list (ref * ref) → Heap → Heap → list Event → Prop :=
| Scan_done σ : Scan guarded [] σ σ []
| Scan_skip s e ps σ σ' L :
    guarded = true →
    e ∈ System.entities (system_at σ s) →
    Scan guarded ps σ σ' L →
    Scan guarded ((s, e) :: ps) σ σ' L
| Scan_miss s e ps σ σ' L :
    (guarded = true → e ∉ System.entities (system_at σ s)) →
    System.test (system_at σ s) (entity_at σ e) = false →
    Scan guarded ps σ σ' L →
    Scan guarded ((s, e) :: ps) σ σ' (EvTest s e σ false :: L)
| Scan_hit s e ps σ σ' L :
    (guarded = true → e ∉ System.entities (system_at σ s)) →
    System.test (system_at σ s) (entity_at σ e) = true →
    Scan guarded ps (link_heap s e σ) σ' L →
    Scan guarded ((s, e) :: ps) σ σ'
         (EvTest s e σ true :: EvInit s e (link_heap s e σ) :: L).

(** The two membership arrays agree. *)
Definition symmetric (σ : Heap) : Prop :=
  ∀ e s, e ∈ System.entities (system_at σ s) ↔ s ∈ Entity._systems (entity_at σ e).

(** Entity [e] is stored in the mapping of scene [this]. *)
Definition in_scene (σ : Heap) (this e : ref) : Prop :=
  ∃ id, PlainObject.get (Scene._entities (scene_at σ this)) id = Some e.

(** The entities of scene [this], in the order [for..in] visits them. *)
Definition enumerated (σ : Heap) (this : ref) : list ref :=
  let o := Scene._entities (scene_at σ this) in
  omap (PlainObject.get o) (PlainObject.keys o).


(** The id [addEntity] assigns. *)
Definition assigned_id (σ : Heap) (this : ref) (id : option string) : string :=
  match id with
  | Some id => id
  | None => Number_toString (Scene._count (scene_at σ this))
  end.

(** The heap [addEntity] scans in: id assigned, entity stored. *)
Definition entity_stored (this entity : ref) (id : option string) (σ : Heap) : Heap :=
  let key := assigned_id σ this id in
  update_scene this (λ scene,
      Scene.with_entities (PlainObject.put (Scene._entities scene) key entity) scene)
    (update_entity entity (Entity.with_id key)
       (match id with
        | None => update_scene this (λ scene,
                    Scene.with_count (Number_increment (Scene._count scene)) scene) σ
        | Some _ => σ
        end)).

(** The heap [addSystem] scans in: system appended and attached. *)
Definition system_attached (this system : ref) (σ : Heap) : Heap :=
  update_system system (System.with_scene (Some this))
    (update_scene this (λ scene,
       Scene.with_systems (push system (Scene._systems scene)) scene) σ).

(** The operations a caller can perform on entities and scenes. *)
Inductive Op :=
| OpEntityAdd (entity : ref) (component : Component.t)
| OpEntitySet (entity : ref) (component : Component.t) (data : gmap string value)
| OpEntityDispatch (entity : ref) (funcName : string) (param : value)
| OpGenerateUID (this : ref)
| OpAddEntity (this entity : ref) (id : option string)
| OpRemoveEntity (this entity : ref)
| OpGetEntity (this : ref) (id : string)
| OpAddSystem (this system : ref)
| OpDispatch (this : ref) (funcName : string) (param : value)
| OpQuery (this : ref) (components : list Component.t)
| OpAddComponentToEntity (this entity : ref) (component : Component.t).

(** The heap an operation leaves. *)
Definition perform (σ : Heap) (op : Op) : Heap :=
  match op with
  | OpEntityAdd entity component => update_entity entity (Entity.add component) σ
  | OpEntitySet entity component data =>
      match Entity.set component data (entity_at σ entity) with
      | Normal e => update_entity entity (λ _, e) σ
      | Throw _ => σ
      end
  | OpEntityDispatch entity funcName param =>
      heap_after (Entity_dispatch entity funcName param σ)
  | OpGenerateUID this => heap_after (generateUID this σ)
  | OpAddEntity this entity id => heap_after (addEntity this entity id σ)
  | OpRemoveEntity this entity => heap_after (removeEntity this entity σ)
  | OpGetEntity this id => heap_after (getEntity this id σ)
  | OpAddSystem this system => heap_after (addSystem this system σ)
  | OpDispatch this funcName param => heap_after (dispatch this funcName param σ)
  | OpQuery this components => heap_after (query this components σ)
  | OpAddComponentToEntity this entity component =>
      heap_after (addComponentToEntity this entity component σ)
  end.

(** Two entities, the first without components, and three systems,
    none of them in a scene yet.  Scene 0 is fresh. *)
Definition world : Heap :=
  MkHeap {[ 1 := Entity.new []; 2 := Entity.new [Position] ]}
         {[ 10 := MovementSystem; 11 := EverySystem; 12 := StillSystem ]}
         ∅.




(** The logged answers are what [test] computes in the heap of the call. *)
Definition answers_are_tests {A} (r : Run A) : Prop :=
  ∀ s e h b,
    EvTest s e h b ∈ calls r → b = System.test (system_at h s) (entity_at h e).

(** Pair (system [s], entity [e]) was tested during the run. *)
Definition tested {A} (r : Run A) (s e : ref) : Prop :=
  ∃ h b, EvTest s e h b ∈ calls r.

(** The systems whose hook a log calls, in order. *)
Definition hooked (L : list Event) : list ref :=
  omap (λ ev, match ev with EvHook s _ _ _ _ => Some s | _ => None end) L.

(** Both systems in the scene, the movement system first; the entity
    without components is added and receives Position afterwards, so
    the movement system starts matching it last. *)
Definition late_match : Run unit :=
  (addSystem 0 10;; addSystem 0 11;; addEntity 0 1 None;;
   addComponentToEntity 0 1 Position) world.

(** Entity [later] holds a component for every name [earlier] does. *)
Definition holds_at_least (earlier later : Entity.t) : Prop :=
  ∀ name, is_Some (Entity._components earlier !! name) →
          is_Some (Entity._components later !! name).

(** What the heap after some operations owes to the heap before them:
    the systems' tests are the same, the entities hold at least the
    components they held, the membership arrays and the ids of the
    mappings have only grown, and every entity a system gained passed
    the system's [test] holding no more than it holds now. *)
Definition carried_over (σ σ' : Heap) : Prop :=
  (∀ s, System.test (system_at σ' s) = System.test (system_at σ s))
  ∧ (∀ e, holds_at_least (entity_at σ e) (entity_at σ' e))
  ∧ (∀ s, ∃ l, System.entities (system_at σ' s) = System.entities (system_at σ s) ++ l
               ∧ ∀ e, e ∈ l →
                   ∃ ent, System.test (system_at σ s) ent = true
                          ∧ holds_at_least ent (entity_at σ' e))
  ∧ (∀ e, ∃ l, Entity._systems (entity_at σ' e) = Entity._systems (entity_at σ e) ++ l)
  ∧ (∀ c id, is_Some (PlainObject.get (Scene._entities (scene_at σ c)) id) →
             is_Some (PlainObject.get (Scene._entities (scene_at σ' c)) id)).




(** The entities a run of [query] returned. *)
Definition found (r : Run (list ref)) : list ref :=
  match completion r with
  | Normal l => l
  | Throw _ => []
  end.

(** * Properties *)

(** ** The model at work *)

Example Number_toString_decimal : Number_toString 9007199254740992 = "9007199254740992".
Proof. reflexivity. Qed.

Example Number_increment_rounds : Number_increment max_exact = max_exact.
Proof. reflexivity. Qed.

Lemma ordinary_Position : ordinary (Component.name Position).
Proof. apply (bool_decide_unpack _). reflexivity. Qed.

Lemma hook_name_update : hook_name "update".
Proof. apply (bool_decide_unpack _). reflexivity. Qed.

(** Array indices first, in numeric order, then the other keys in the
    order of their creation. *)
Example for_in_order :
  PlainObject.keys
    (PlainObject.put (PlainObject.put (PlainObject.put (PlainObject.put
       PlainObject.empty "b" 1) "10" 2) "a" 3) "9" 4)
  = ["9"; "10"; "b"; "a"].
Proof. vm_compute. reflexivity. Qed.

Example overwritten_key_keeps_its_place :
  PlainObject.put (PlainObject.put (PlainObject.put
    PlainObject.empty "b" 1) "a" 2) "b" 3
  = [("b", 3); ("a", 2)].
Proof. vm_compute. reflexivity. Qed.

(** ["01"] is not an array index. *)
Example leading_zero_is_a_name :
  PlainObject.keys (PlainObject.put (PlainObject.put PlainObject.empty "01" 1) "7" 2)
  = ["7"; "01"].
Proof. vm_compute. reflexivity. Qed.

(** ** Reading the heap after a write *)

Lemma entity_at_update_entity (r : ref) f σ (r' : ref) :
  entity_at (update_entity r f σ) r' = if decide (r = r') then f (entity_at σ r) else entity_at σ r'.
Proof. unfold entity_at, update_entity; simpl. apply lookup_total_insert. Qed.

Lemma system_at_update_system (r : ref) f σ (r' : ref) :
  system_at (update_system r f σ) r' = if decide (r = r') then f (system_at σ r) else system_at σ r'.
Proof. unfold system_at, update_system; simpl. apply lookup_total_insert. Qed.

Lemma scene_at_update_scene (r : ref) f σ (r' : ref) :
  scene_at (update_scene r f σ) r' = if decide (r = r') then f (scene_at σ r) else scene_at σ r'.
Proof. unfold scene_at, update_scene; simpl. apply lookup_total_insert. Qed.

Lemma entity_at_link_heap (s e : ref) σ (r : ref) :
  entity_at (link_heap s e σ) r =
  if decide (e = r) then Entity.with_systems (Entity._systems (entity_at σ e) ++ [s]) (entity_at σ e)
  else entity_at σ r.
Proof.
  unfold link_heap, entity_at, update_system, update_entity, push; simpl.
  by rewrite lookup_total_insert.
Qed.

Lemma system_at_link_heap (s e : ref) σ (r : ref) :
  system_at (link_heap s e σ) r =
  if decide (s = r) then System.with_entities (System.entities (system_at σ s) ++ [e]) (system_at σ s)
  else system_at σ r.
Proof.
  unfold link_heap, system_at, update_system, update_entity, push; simpl.
  by rewrite lookup_total_insert.
Qed.

(** ** Loops *)

Lemma for_of_cons {X} (x : X) l body σ :
  for_of (x :: l) body σ =
  let r := body x σ in
  match completion r with
  | Normal _ =>
      let r' := for_of l body (heap_after r) in
      MkRun (completion r') (heap_after r') (calls r ++ calls r')
  | Throw err => MkRun (Throw err) (heap_after r) (calls r)
  end.
Proof.
  unfold for_of; simpl. unfold mbind, M_bind.
  destruct (completion (body x σ)) as [[]|]; reflexivity.
Qed.

(** The loop of [addEntity] is an unguarded scan of the entity against
    the systems. *)
Lemma addEntity_loop entity systems σ :
  let r := for_of systems (λ system,
    matches ← call_test system entity;
    if matches : bool then
      write (update_entity entity (λ e, Entity.with_systems (push system (Entity._systems e)) e));;
      write (update_system system (λ s, System.with_entities (push entity (System.entities s)) s));;
      call_init system entity
    else mret ()) σ in
  completion r = Normal () ∧
  Scan false ((λ s, (s, entity)) <$> systems) σ (heap_after r) (calls r).
Proof.
  revert σ. induction systems as [|s systems IH]; intros σ.
  - split; [reflexivity | constructor].
  - rewrite for_of_cons. unfold call_test at 1, mbind at 1, M_bind at 1. simpl.
    destruct (System.test (system_at σ s) (entity_at σ entity)) eqn:Ht; simpl.
    + destruct (IH (link_heap s entity σ)) as [Hc HS]. split; [exact Hc|].
      apply Scan_hit; [done | exact Ht | exact HS].
    + destruct (IH σ) as [Hc HS]. split; [exact Hc|].
      apply Scan_miss; [done | exact Ht | exact HS].
Qed.

(** The loop of [addComponentToEntity] is a guarded scan. *)
Lemma addComponentToEntity_loop entity systems σ :
  let r := for_of systems (λ system,
    absent ← read (λ σ, bool_decide (entity ∉ System.entities (system_at σ system)));
    if absent : bool then
      matches ← call_test system entity;
      if matches : bool then
        write (update_system system (λ s, System.with_entities (push entity (System.entities s)) s));;
        write (update_entity entity (λ e, Entity.with_systems (push system (Entity._systems e)) e));;
        call_init system entity
      else mret ()
    else mret ()) σ in
  completion r = Normal () ∧
  Scan true ((λ s, (s, entity)) <$> systems) σ (heap_after r) (calls r).
Proof.
  revert σ. induction systems as [|s systems IH]; intros σ.
  - split; [reflexivity | constructor].
  - rewrite for_of_cons. unfold read at 1, mbind at 1, M_bind at 1. simpl.
    case_bool_decide as Habs; simpl.
    + unfold call_test at 1, mbind at 1, M_bind at 1. simpl.
      destruct (System.test (system_at σ s) (entity_at σ entity)) eqn:Ht; simpl.
      * destruct (IH (link_heap s entity σ)) as [Hc HS]. split; [exact Hc|].
        apply Scan_hit; [done | exact Ht | exact HS].
      * destruct (IH σ) as [Hc HS]. split; [exact Hc|].
        apply Scan_miss; [done | exact Ht | exact HS].
    + destruct (IH σ) as [Hc HS]. split; [exact Hc|].
      apply Scan_skip; [done | | exact HS].
      destruct (decide (entity ∈ System.entities (system_at σ s))); [done | contradiction].
Qed.

Lemma PlainObject_get_keys (o : PlainObject.t) id :
  id ∈ PlainObject.keys o → is_Some (PlainObject.get o id).
Proof.
  unfold PlainObject.keys. induction o as [|[k v] o IH]; simpl.
  - by intros ?%elem_of_nil.
  - intros [->|Hin]%elem_of_cons; case_bool_decide; eauto; done.
Qed.

(** The loop of [addSystem] is an unguarded scan of the system against
    the entities the keys name. *)
Lemma addSystem_loop this system o ids σ :
  Scene._entities (scene_at σ this) = o →
  (∀ id, id ∈ ids → is_Some (PlainObject.get o id)) →
  let r := for_of ids (λ id,
    entity ← entity_of_key this id;
    matches ← call_test system entity;
    if matches : bool then
      write (update_system system (λ s, System.with_entities (push entity (System.entities s)) s));;
      write (update_entity entity (λ e, Entity.with_systems (push system (Entity._systems e)) e));;
      call_init system entity
    else mret ()) σ in
  completion r = Normal () ∧
  Scan false ((λ e, (system, e)) <$> omap (PlainObject.get o) ids) σ (heap_after r) (calls r).
Proof.
  match goal with |- context [for_of _ ?b] => set (body := b) end.
  revert σ. induction ids as [|id ids IH]; intros σ Ho Hids.
  - split; [reflexivity | constructor].
  - destruct (Hids id) as [e He]; [left|].
    assert (body id σ =
            if System.test (system_at σ system) (entity_at σ e)
            then MkRun (Normal ()) (link_heap system e σ)
                       [EvTest system e σ true; EvInit system e (link_heap system e σ)]
            else MkRun (Normal ()) σ [EvTest system e σ false]) as Hb.
    { unfold body, entity_of_key, getEntity, read, mbind, M_bind. simpl.
      rewrite Ho, He. simpl. by destruct (System.test _ _). }
    rewrite for_of_cons, Hb.
    destruct (System.test (system_at σ system) (entity_at σ e)) eqn:Ht; simpl.
    + rewrite He. simpl.
      destruct (IH (link_heap system e σ)) as [Hc HS]; [exact Ho | by intros; apply Hids; right |].
      split; [exact Hc|]. apply Scan_hit; [done | exact Ht | exact HS].
    + rewrite He. simpl.
      destruct (IH σ) as [Hc HS]; [exact Ho | by intros; apply Hids; right |].
      split; [exact Hc|]. apply Scan_miss; [done | exact Ht | exact HS].
Qed.

(** ** Running the monad, one step at a time *)

Lemma run_bind {A B} (m : M A) (k : A → M B) σ :
  (m ≫= k) σ =
  match completion (m σ) with
  | Normal a =>
      MkRun (completion (k a (heap_after (m σ))))
            (heap_after (k a (heap_after (m σ))))
            (calls (m σ) ++ calls (k a (heap_after (m σ))))
  | Throw err => MkRun (Throw err) (heap_after (m σ)) (calls (m σ))
  end.
Proof. reflexivity. Qed.

Lemma run_read {A} (f : Heap → A) σ : read f σ = MkRun (Normal (f σ)) σ [].
Proof. reflexivity. Qed.

Lemma run_write f σ : write f σ = MkRun (Normal ()) (f σ) [].
Proof. reflexivity. Qed.

Lemma run_ret {A} (a : A) σ : (mret a : M A) σ = MkRun (Normal a) σ [].
Proof. reflexivity. Qed.

Lemma run_throw {A} err σ : throw (A:=A) err σ = MkRun (Throw err) σ [].
Proof. reflexivity. Qed.

Ltac run_simpl :=
  rewrite ?run_read, ?run_write, ?run_ret, ?run_throw;
  cbn [completion heap_after calls app].

Ltac run_step := rewrite run_bind; run_simpl.

(** ** The three operations as a prelude followed by a scan *)

Lemma scene_systems_entity_stored σ this entity id :
  Scene._systems (scene_at (entity_stored this entity id σ) this) =
  Scene._systems (scene_at σ this).
Proof.
  unfold entity_stored. rewrite scene_at_update_scene, decide_True by done.
  cbn [Scene._systems Scene.with_entities].
  change (scene_at (update_entity ?e ?f ?h) ?t) with (scene_at h t).
  destruct id; [done|]. by rewrite scene_at_update_scene, decide_True.
Qed.

Lemma addEntity_run σ this entity id :
  let r := addEntity this entity id σ in
  completion r = Normal entity ∧
  Scan false ((λ s, (s, entity)) <$> Scene._systems (scene_at σ this))
       (entity_stored this entity id σ) (heap_after r) (calls r).
Proof.
  pose proof (addEntity_loop entity (Scene._systems (scene_at σ this))
                (entity_stored this entity id σ)) as [Hc HS].
  set (loop := for_of _ _ _) in Hc, HS.
  unfold addEntity, generateUID.
  destruct id as [id|]; repeat run_step;
    rewrite entity_at_update_entity, decide_True by done;
    cbn [Entity.id Entity.with_id];
    match goal with
    | |- context [for_of _ _ ?h] =>
        first [ change h with (entity_stored this entity (Some id) σ)
              | change h with (entity_stored this entity None σ) ]
    end;
    rewrite scene_systems_entity_stored; fold loop; rewrite Hc, app_nil_r;
    (split; [reflexivity | exact HS]).
Qed.

Lemma addSystem_run σ this system :
  let r := addSystem this system σ in
  completion r = Normal () ∧
  Scan false ((λ e, (system, e)) <$> enumerated σ this)
       (system_attached this system σ) (heap_after r) (calls r).
Proof.
  pose proof (addSystem_loop this system (Scene._entities (scene_at σ this))
                (PlainObject.keys (Scene._entities (scene_at σ this)))
                (system_attached this system σ)) as Hloop.
  destruct Hloop as [Hc HS].
  { unfold system_attached.
    change (scene_at (update_system ?e ?f ?h) ?t) with (scene_at h t).
    by rewrite scene_at_update_scene, decide_True. }
  { apply PlainObject_get_keys. }
  set (loop := for_of _ _ _) in Hc, HS.
  unfold addSystem. repeat run_step.
  match goal with
  | |- context [for_of _ _ ?h] => change h with (system_attached this system σ)
  end.
  change (scene_at (system_attached this system σ) this)
    with (scene_at (update_scene this (λ scene,
       Scene.with_systems (push system (Scene._systems scene)) scene) σ) this).
  rewrite scene_at_update_scene, decide_True by done.
  cbn [Scene._entities Scene.with_systems].
  fold loop. split; [exact Hc | exact HS].
Qed.

Lemma addComponentToEntity_run σ this entity component :
  let r := addComponentToEntity this entity component σ in
  completion r = Normal () ∧
  Scan true ((λ s, (s, entity)) <$> Scene._systems (scene_at σ this))
       (update_entity entity (Entity.add component) σ) (heap_after r) (calls r).
Proof.
  pose proof (addComponentToEntity_loop entity (Scene._systems (scene_at σ this))
                (update_entity entity (Entity.add component) σ)) as [Hc HS].
  set (loop := for_of _ _ _) in Hc, HS.
  unfold addComponentToEntity. repeat run_step.
  change (scene_at (update_entity ?e ?f ?h) ?t) with (scene_at h t).
  fold loop. split; [exact Hc | exact HS].
Qed.

(** ** What a scan does to the heap and what it logs *)

Lemma with_systems_same (e : Entity.t) : Entity.with_systems (Entity._systems e ++ []) e = e.
Proof. destruct e; by rewrite app_nil_r. Qed.

Lemma with_entities_same (s : System.t) : System.with_entities (System.entities s ++ []) s = s.
Proof. destruct s; by rewrite app_nil_r. Qed.

Lemma members_of_cons_test e s e' σ b L :
  members_of e (EvTest s e' σ b :: L) = members_of e L.
Proof. reflexivity. Qed.

Lemma matched_by_cons_test s s' e σ b L :
  matched_by s (EvTest s' e σ b :: L) = matched_by s L.
Proof. reflexivity. Qed.

Lemma members_of_cons_init (e s e' : ref) σ L :
  members_of e (EvInit s e' σ :: L) = (if decide (e' = e) then [s] else []) ++ members_of e L.
Proof. unfold members_of; simpl. by destruct (decide (e' = e)). Qed.

Lemma matched_by_cons_init (s s' e : ref) σ L :
  matched_by s (EvInit s' e σ :: L) = (if decide (s' = s) then [e] else []) ++ matched_by s L.
Proof. unfold matched_by; simpl. by destruct (decide (s' = s)). Qed.

Lemma elem_of_matched_by (s e : ref) L : e ∈ matched_by s L ↔ (s, e) ∈ inits L.
Proof.
  unfold matched_by. rewrite list_elem_of_omap. split.
  - intros ([s' e'] & Hin & Heq); simpl in Heq. by case_decide; simplify_eq.
  - intros Hin. exists (s, e). split; [done|]. simpl. by rewrite decide_True.
Qed.

Lemma elem_of_members_of (s e : ref) L : s ∈ members_of e L ↔ (s, e) ∈ inits L.
Proof.
  unfold members_of. rewrite list_elem_of_omap. split.
  - intros ([s' e'] & Hin & Heq); simpl in Heq. by case_decide; simplify_eq.
  - intros Hin. exists (s, e). split; [done|]. simpl. by rewrite decide_True.
Qed.

(** A scan only appends: to an entity's systems the systems that
    initialise it, to a system's entities the entities it initialises, in
    the order of the calls.  Nothing else changes. *)
Lemma Scan_frame guarded ps σ σ' L :
  Scan guarded ps σ σ' L →
  (∀ e, entity_at σ' e =
        Entity.with_systems (Entity._systems (entity_at σ e) ++ members_of e L) (entity_at σ e))
  ∧ (∀ s, system_at σ' s =
        System.with_entities (System.entities (system_at σ s) ++ matched_by s L) (system_at σ s))
  ∧ scene_objects σ' = scene_objects σ.
Proof.
  induction 1 as [σ | s e ps σ σ' L _ _ _ IH | s e ps σ σ' L _ _ _ IH
                 | s e ps σ σ' L _ _ _ (IHe & IHs & IHc)]; try exact IH.
  - split_and!; intros; [apply eq_sym, with_systems_same | apply eq_sym, with_entities_same | done].
  - split_and!.
    + intros e0. rewrite members_of_cons_test, members_of_cons_init, IHe, entity_at_link_heap.
      destruct (decide (e = e0)) as [->|]; cbn; [by rewrite <-app_assoc | done].
    + intros s0. rewrite matched_by_cons_test, matched_by_cons_init, IHs, system_at_link_heap.
      destruct (decide (s = s0)) as [->|]; cbn; [by rewrite <-app_assoc | done].
    + by rewrite IHc.
Qed.

(** Every [init] follows a [test] that answered true, once per such
    test and in the same order. *)
Lemma Scan_inits guarded ps σ σ' L :
  Scan guarded ps σ σ' L → inits L = hits (tests L).
Proof. induction 1; simpl; [done | done | done | by f_equal]. Qed.

(** An unguarded scan tests every pair it visits, in order. *)
Lemma Scan_tests_unguarded ps σ σ' L :
  Scan false ps σ σ' L → (tests L).*1 = ps.
Proof. induction 1; simpl; [done | done | by f_equal | by f_equal]. Qed.

(** A test is made on a pair of the scan, answers what [test] computes
    in the heap of the call and, in a guarded scan, is made only when
    the system does not hold the entity yet. *)
Lemma Scan_tests guarded ps σ σ' L s e h b :
  Scan guarded ps σ σ' L →
  EvTest s e h b ∈ L →
  (s, e) ∈ ps
  ∧ b = System.test (system_at h s) (entity_at h e)
  ∧ (guarded = true → e ∉ System.entities (system_at h s)).
Proof.
  induction 1 as [σ | s0 e0 ps σ σ' L Hg Hin _ IH | s0 e0 ps σ σ' L Hg Ht _ IH
                 | s0 e0 ps σ σ' L Hg Ht _ IH]; intros Hev.
  - by apply elem_of_nil in Hev.
  - destruct (IH Hev) as (? & ? & ?). split_and!; [by right | done | done].
  - apply elem_of_cons in Hev as [Heq|Hev].
    + simplify_eq. split_and!; [by left | done | done].
    + destruct (IH Hev) as (? & ? & ?). split_and!; [by right | done | done].
  - apply elem_of_cons in Hev as [Heq|Hev].
    + simplify_eq. split_and!; [by left | done | done].
    + apply elem_of_cons in Hev as [Heq|Hev]; [done|].
      destruct (IH Hev) as (? & ? & ?). split_and!; [by right | done | done].
Qed.

(** A scan calls nothing but [test] and [init]. *)
Lemma Scan_events guarded ps σ σ' L ev :
  Scan guarded ps σ σ' L → ev ∈ L →
  match ev with EvTest _ _ _ _ | EvInit _ _ _ => True | _ => False end.
Proof.
  induction 1 as [σ | s e ps σ σ' L _ _ _ IH | s e ps σ σ' L _ _ _ IH
                 | s e ps σ σ' L _ _ _ IH]; intros Hev.
  - by apply elem_of_nil in Hev.
  - by apply IH.
  - apply elem_of_cons in Hev as [->|Hev]; [done | by apply IH].
  - apply elem_of_cons in Hev as [->|Hev]; [done|].
    apply elem_of_cons in Hev as [->|Hev]; [done | by apply IH].
Qed.

(** Whatever recording a match preserves holds in the heap of every
    call of a scan, and at its end. *)
Lemma Scan_seen (P : Heap → Prop) guarded ps σ σ' L :
  (∀ s e h, P h → P (link_heap s e h)) →
  Scan guarded ps σ σ' L →
  P σ → (∀ ev, ev ∈ L → P (seen ev)) ∧ P σ'.
Proof.
  intros Hlink. induction 1 as [σ | s e ps σ σ' L _ _ _ IH | s e ps σ σ' L _ _ _ IH
                               | s e ps σ σ' L _ _ _ IH]; intros HP.
  - split; [by intros ? ?%elem_of_nil | done].
  - auto.
  - destruct (IH HP) as [HL Hend]. split; [|done].
    intros ev [->|Hev]%elem_of_cons; auto.
  - destruct (IH (Hlink s e σ HP)) as [HL Hend]. split; [|done].
    intros ev [->|Hev]%elem_of_cons; [done|].
    apply elem_of_cons in Hev as [->|Hev]; [by apply Hlink | auto].
Qed.

(** A guarded scan initialises a pair at most once, and only pairs that
    were not recorded before. *)
Lemma Scan_guarded_once ps σ σ' L :
  Scan true ps σ σ' L →
  NoDup (inits L) ∧ ∀ s e, (s, e) ∈ inits L → e ∉ System.entities (system_at σ s).
Proof.
  induction 1 as [σ | s0 e0 ps σ σ' L _ _ _ IH | s0 e0 ps σ σ' L _ _ _ IH
                 | s0 e0 ps σ σ' L Hg _ _ [IHnd IHnew]]; simpl; try exact IH.
  - split; [constructor | by intros ? ? ?%elem_of_nil].
  - split.
    + constructor; [|done]. intros Hin. apply (IHnew _ _ Hin).
      rewrite system_at_link_heap, decide_True by done. cbn.
      apply elem_of_app. right. by left.
    + intros s e [Heq|Hin]%elem_of_cons; [simplify_eq; by apply Hg|].
      intros Hold. apply (IHnew _ _ Hin). rewrite system_at_link_heap.
      destruct (decide (s0 = s)) as [->|]; [|done]. cbn. apply elem_of_app. by left.
Qed.

(** A guarded scan tests every pair it visits that is not recorded when
    the scan starts. *)
Lemma Scan_guarded_complete ps σ σ' L s e :
  Scan true ps σ σ' L →
  (s, e) ∈ ps → e ∉ System.entities (system_at σ s) →
  ∃ h b, EvTest s e h b ∈ L.
Proof.
  induction 1 as [σ | s0 e0 ps σ σ' L _ Hin _ IH | s0 e0 ps σ σ' L _ _ _ IH
                 | s0 e0 ps σ σ' L _ _ _ IH]; intros Hps Hnew.
  - by apply elem_of_nil in Hps.
  - apply elem_of_cons in Hps as [Heq|Hps]; [by simplify_eq | auto].
  - apply elem_of_cons in Hps as [Heq|Hps].
    + simplify_eq. eexists _, _. by left.
    + destruct (IH Hps Hnew) as (h & b & Hev). exists h, b. by right.
  - destruct (decide ((s, e) = (s0, e0))) as [Heq|Hne].
    + simplify_eq. eexists _, _. by left.
    + apply elem_of_cons in Hps as [Heq|Hps]; [done|].
      destruct IH as (h & b & Hev); [done| |].
      * rewrite system_at_link_heap. destruct (decide (s0 = s)) as [->|]; [|done].
        cbn. intros [?|Hin]%elem_of_app; [done|].
        apply list_elem_of_singleton in Hin. by simplify_eq.
      * exists h, b. right. by right.
Qed.

(** ** Symmetry of the two membership arrays *)

Lemma symmetric_same_arrays σ σ' :
  (∀ e, Entity._systems (entity_at σ' e) = Entity._systems (entity_at σ e)) →
  (∀ s, System.entities (system_at σ' s) = System.entities (system_at σ s)) →
  symmetric σ → symmetric σ'.
Proof. intros He Hs Hsym e s. rewrite He, Hs. apply Hsym. Qed.

Lemma Scan_symmetric guarded ps σ σ' L :
  Scan guarded ps σ σ' L → symmetric σ → symmetric σ'.
Proof.
  intros (He & Hs & _)%Scan_frame Hsym e s. rewrite He, Hs. cbn.
  rewrite !elem_of_app, elem_of_matched_by, elem_of_members_of.
  by rewrite (Hsym e s).
Qed.

Lemma entity_stored_arrays σ this entity id :
  (∀ e, Entity._systems (entity_at (entity_stored this entity id σ) e)
        = Entity._systems (entity_at σ e))
  ∧ (∀ s, System.entities (system_at (entity_stored this entity id σ) s)
        = System.entities (system_at σ s)).
Proof.
  unfold entity_stored. split.
  - intros e. change (entity_at (update_scene ?c ?f ?h) ?t) with (entity_at h t).
    rewrite entity_at_update_entity.
    destruct (decide (entity = e)) as [->|]; by destruct id.
  - intros s. by destruct id.
Qed.

Lemma system_attached_arrays σ this system :
  (∀ e, Entity._systems (entity_at (system_attached this system σ) e)
        = Entity._systems (entity_at σ e))
  ∧ (∀ s, System.entities (system_at (system_attached this system σ) s)
        = System.entities (system_at σ s)).
Proof.
  unfold system_attached. split; [done|].
  intros s. rewrite system_at_update_system.
  by destruct (decide (system = s)) as [->|].
Qed.

Lemma component_added_arrays σ entity component :
  (∀ e, Entity._systems (entity_at (update_entity entity (Entity.add component) σ) e)
        = Entity._systems (entity_at σ e))
  ∧ (∀ s, System.entities (system_at (update_entity entity (Entity.add component) σ) s)
        = System.entities (system_at σ s)).
Proof.
  split; [|done]. intros e. rewrite entity_at_update_entity.
  by destruct (decide (entity = e)) as [->|].
Qed.

Lemma removeEntity_run σ this entity :
  removeEntity this entity σ = MkRun (Throw TypeError) σ [].
Proof.
  unfold removeEntity, invoke_on_entities. repeat run_step.
  by destruct (PlainObject.get _ _).
Qed.

(** Objects that were never linked, freshly constructed ones among
    them, are in agreement. *)
Lemma symmetric_detached σ :
  map_Forall (λ _ e, Entity._systems e = []) (entity_objects σ) →
  map_Forall (λ _ s, System.entities s = []) (system_objects σ) →
  symmetric σ.
Proof.
  intros He Hs e s. unfold entity_at, system_at. rewrite !lookup_total_alt.
  assert (System.entities (default inhabitant (system_objects σ !! s)) = []) as ->.
  { destruct (system_objects σ !! s) eqn:E; [exact (Hs _ _ E) | done]. }
  assert (Entity._systems (default inhabitant (entity_objects σ !! e)) = []) as ->.
  { destruct (entity_objects σ !! e) eqn:E; [exact (He _ _ E) | done]. }
  split; intros []%elem_of_nil.
Qed.

(** C2. [removeEntity] throws a [TypeError] on its first statement, for
    every scene and entity, in the scene or not: it calls no [exit] and
    changes nothing.  On a scene with one system matching one entity,
    stored under the id "0", the entity is afterwards still among the
    system's entities, still has the id "0" and is still what
    [getEntity("0")] returns. *)
Theorem removeEntity_always_throws σ this entity :
  (let r := removeEntity this entity σ in
   completion r = Throw TypeError ∧ heap_after r = σ ∧ calls r = [])
  ∧ (let r := (addSystem 0 11;; addEntity 0 1 None;; removeEntity 0 1) world in
     completion r = Throw TypeError
     ∧ inits (calls r) = [(11, 1)]
     ∧ exits (calls r) = []
     ∧ System.entities (system_at (heap_after r) 11) = [1]
     ∧ Entity.id (entity_at (heap_after r) 1) = "0"
     ∧ completion (getEntity 0 "0" (heap_after r)) = Normal (Some 1)).
Proof.
  split.
  - by rewrite removeEntity_run.
  - vm_compute. repeat split.
Qed.

(** ** Membership and the tests made *)

Lemma elem_of_tests (s e : ref) b L :
  (s, e, b) ∈ tests L ↔ ∃ h, EvTest s e h b ∈ L.
Proof.
  unfold tests. rewrite list_elem_of_omap. split.
  - intros (ev & Hin & Heq). destruct ev; simplify_eq. eauto.
  - intros [h Hin]. by exists (EvTest s e h b).
Qed.

Lemma elem_of_hits (s e : ref) T : (s, e) ∈ hits T ↔ (s, e, true) ∈ T.
Proof.
  unfold hits. rewrite list_elem_of_omap. split.
  - intros ([[s' e'] []] & Hin & Heq); by simplify_eq/=.
  - intros Hin. by exists (s, e, true).
Qed.



Lemma PlainObject_get_Some_keys (o : PlainObject.t) id e :
  PlainObject.get o id = Some e → id ∈ PlainObject.keys o.
Proof.
  unfold PlainObject.keys. induction o as [|[k v] o IH]; simpl; [done|].
  case_bool_decide; [intros _; subst; by left | intros ?; right; auto].
Qed.

Lemma in_scene_enumerated σ this e : e ∈ enumerated σ this ↔ in_scene σ this e.
Proof.
  unfold enumerated, in_scene. rewrite list_elem_of_omap. split.
  - intros (id & _ & Hget). eauto.
  - intros [id Hget]. exists id. split; [|done]. by eapply PlainObject_get_Some_keys.
Qed.



(** ** The mapping from ids to entities *)

Lemma PlainObject_get_overwrite (o : PlainObject.t) k v :
  is_Some (PlainObject.get o k) →
  PlainObject.get (PlainObject.overwrite o k v) k = Some v.
Proof.
  induction o as [|[k' v'] o IH]; simpl; [by intros [? ?]|].
  case_bool_decide as Hk; simpl.
  - intros _. by rewrite bool_decide_eq_true_2.
  - intros Hget. rewrite bool_decide_eq_false_2 by done. auto.
Qed.

Lemma PlainObject_get_create (o : PlainObject.t) k v :
  PlainObject.get o k = None →
  PlainObject.get (PlainObject.create o k v) k = Some v.
Proof.
  induction o as [|[k' v'] o IH]; simpl.
  - intros _. by rewrite bool_decide_eq_true_2.
  - case_bool_decide as Hk; [done|]. intros Hget.
    destruct (PlainObject.comes_after k k'); simpl.
    + by rewrite bool_decide_eq_true_2.
    + rewrite bool_decide_eq_false_2 by done. auto.
Qed.

Lemma PlainObject_get_put (o : PlainObject.t) k v :
  PlainObject.get (PlainObject.put o k v) k = Some v.
Proof.
  unfold PlainObject.put. destruct (PlainObject.get o k) eqn:Hget.
  - apply PlainObject_get_overwrite. by rewrite Hget.
  - by apply PlainObject_get_create.
Qed.

(** ** addEntity *)

Lemma entity_stored_id σ this entity id :
  Entity.id (entity_at (entity_stored this entity id σ) entity) = assigned_id σ this id.
Proof.
  unfold entity_stored.
  change (entity_at (update_scene ?c ?f ?h) ?t) with (entity_at h t).
  by rewrite entity_at_update_entity, decide_True.
Qed.

Lemma entity_stored_get σ this entity id :
  PlainObject.get (Scene._entities (scene_at (entity_stored this entity id σ) this))
                  (assigned_id σ this id) = Some entity.
Proof.
  unfold entity_stored. rewrite scene_at_update_scene, decide_True by done.
  cbn. apply PlainObject_get_put.
Qed.

Lemma entity_stored_count σ this entity id :
  Scene._count (scene_at (entity_stored this entity id σ) this) =
  match id with
  | None => Number_increment (Scene._count (scene_at σ this))
  | Some _ => Scene._count (scene_at σ this)
  end.
Proof.
  unfold entity_stored. rewrite scene_at_update_scene, decide_True by done. cbn.
  change (scene_at (update_entity ?e ?f ?h) ?t) with (scene_at h t).
  destruct id; [done|]. by rewrite scene_at_update_scene, decide_True.
Qed.

Lemma scene_at_Scan guarded ps σ σ' L this :
  Scan guarded ps σ σ' L → scene_at σ' this = scene_at σ this.
Proof. intros (_ & _ & Hc)%Scan_frame. unfold scene_at. by rewrite Hc. Qed.

Lemma members_of_all (entity : ref) L :
  (∀ p, p ∈ inits L → p.2 = entity) → members_of entity L = (inits L).*1.
Proof.
  unfold members_of. induction (inits L) as [|[s e] l IH]; intros Hall; [done|].
  simpl. rewrite decide_True by (apply (Hall (s, e)); by left).
  f_equal. apply IH. intros p Hp. apply Hall. by right.
Qed.

Lemma Scan_inits_pairs guarded ps σ σ' L p :
  Scan guarded ps σ σ' L → p ∈ inits L → p ∈ ps.
Proof.
  intros HS. destruct p as [s e].
  rewrite (Scan_inits _ _ _ _ _ HS), elem_of_hits, elem_of_tests.
  intros [h Hev]. by destruct (Scan_tests _ _ _ _ _ _ _ _ _ HS Hev).
Qed.

Lemma Scan_one_entity guarded systems (entity : ref) σ σ' L :
  Scan guarded ((λ s, (s, entity)) <$> systems) σ σ' L →
  Entity._systems (entity_at σ' entity) =
  Entity._systems (entity_at σ entity) ++ (inits L).*1.
Proof.
  intros HS. destruct (Scan_frame _ _ _ _ _ HS) as (He & _ & _).
  rewrite He. cbn. f_equal. apply members_of_all.
  intros p Hp. apply (Scan_inits_pairs _ _ _ _ _ _ HS) in Hp.
  apply list_elem_of_fmap in Hp as (s & -> & _). done.
Qed.

Lemma elem_of_hits_fst T p : p ∈ hits T → p ∈ T.*1.
Proof.
  unfold hits. intros (t & Ht & Hp)%list_elem_of_omap.
  destruct t as [q b]. destruct b; simplify_eq/=.
  apply list_elem_of_fmap. by exists (p, true).
Qed.

Lemma NoDup_hits T : NoDup T.*1 → NoDup (hits T).
Proof.
  induction T as [|[p b] T IH]; simpl; [constructor|].
  intros [Hnotin Hnd]%NoDup_cons. destruct b; simpl; [|by apply IH].
  constructor; [|by apply IH]. intros Hin. by apply Hnotin, elem_of_hits_fst.
Qed.

(** C4, as stated, fails: a system added to the scene twice is listed
    twice, and [addEntity] then tests it twice and, the entity matching,
    calls its [init] twice and records the membership twice. *)
Lemma addEntity_init_once_counterexample :
  let σ := heap_after ((addSystem 0 11;; addSystem 0 11) world) in
  let r := addEntity 0 1 None σ in
  ¬ (∀ s, s ∈ Scene._systems (scene_at σ 0) →
          System.test (system_at σ s) (entity_at (heap_after r) 1) = true →
          length (filter (λ p, p = (s, 1)) (inits (calls r))) = 1
          ∧ length (filter (λ e, e = 1) (System.entities (system_at (heap_after r) s))) = 1).
Proof.
  intros σ r Honce.
  assert (Scene._systems (scene_at σ 0) = [11; 11]) as Hsystems by (vm_compute; reflexivity).
  assert (inits (calls r) = [(11, 1); (11, 1)]) as Hinits by (vm_compute; reflexivity).
  destruct (Honce 11) as [Hinit _].
  - rewrite Hsystems. by left.
  - reflexivity.
  - rewrite Hinits in Hinit. discriminate Hinit.
Qed.

(** C4, amended. [addEntity(entity, id)] returns the entity, having
    assigned it the explicit id or else the decimal numeral of the
    counter (which it then increments) and stored it in the mapping
    under that id.  It calls [test] once for every listing of a system
    in the scene's systems, in their order; each answer is what [test]
    computes; [init] is called once for every test that answered true,
    in the same order; a system's entities grow by the entity once per
    [init], and the entity's systems grow by the systems that
    initialised it, in order.  When no system is listed twice, no system
    is initialised twice. *)
Theorem addEntity_spec σ this entity id :
  let r := addEntity this entity id σ in
  let key := assigned_id σ this id in
  completion r = Normal entity
  ∧ Entity.id (entity_at (heap_after r) entity) = key
  ∧ PlainObject.get (Scene._entities (scene_at (heap_after r) this)) key = Some entity
  ∧ Scene._count (scene_at (heap_after r) this) =
    match id with
    | None => Number_increment (Scene._count (scene_at σ this))
    | Some _ => Scene._count (scene_at σ this)
    end
  ∧ (tests (calls r)).*1 = (λ s, (s, entity)) <$> Scene._systems (scene_at σ this)
  ∧ answers_are_tests r
  ∧ inits (calls r) = hits (tests (calls r))
  ∧ (∀ s, System.entities (system_at (heap_after r) s)
          = System.entities (system_at σ s) ++ matched_by s (calls r))
  ∧ Entity._systems (entity_at (heap_after r) entity)
    = Entity._systems (entity_at σ entity) ++ (inits (calls r)).*1
  ∧ (NoDup (Scene._systems (scene_at σ this)) → NoDup (inits (calls r))).
Proof.
  intros r key. destruct (addEntity_run σ this entity id) as [Hc HS]. fold r in Hc, HS.
  destruct (entity_stored_arrays σ this entity id) as [He Hs].
  destruct (Scan_frame _ _ _ _ _ HS) as (Hfe & Hfs & _).
  split_and!.
  - exact Hc.
  - rewrite Hfe. cbn. apply entity_stored_id.
  - rewrite (scene_at_Scan _ _ _ _ _ this HS). apply entity_stored_get.
  - rewrite (scene_at_Scan _ _ _ _ _ this HS). apply entity_stored_count.
  - exact (Scan_tests_unguarded _ _ _ _ HS).
  - intros s e h b Hev. by destruct (Scan_tests _ _ _ _ _ _ _ _ _ HS Hev) as (_ & ? & _).
  - exact (Scan_inits _ _ _ _ _ HS).
  - intros s. rewrite Hfs. cbn. by rewrite Hs.
  - rewrite (Scan_one_entity _ _ _ _ _ _ HS). by rewrite He.
  - intros Hnd. rewrite (Scan_inits _ _ _ _ _ HS). apply NoDup_hits.
    rewrite (Scan_tests_unguarded _ _ _ _ HS).
    by apply (NoDup_fmap_2 (λ s, (s, entity))).
Qed.

(** ** addComponentToEntity *)

Lemma components_link_heap s e h (entity : ref) :
  Entity._components (entity_at (link_heap s e h) entity) =
  Entity._components (entity_at h entity).
Proof. rewrite entity_at_link_heap. by destruct (decide (e = entity)) as [->|]. Qed.

(** C5. [addComponentToEntity(entity, component)] adds the component
    first: every call it makes sees the entity holding it.  It calls
    [test] only for systems of the scene that do not hold the entity at
    that moment, and for every system of the scene that did not hold it
    before; [init] is called once per test that answered true and never
    twice for the same system; a system's entities only grow, by the
    entity when it is a fresh match, and the entity's systems grow by
    the fresh matches, in order.  In Scenario 2 a system testing
    [has(Position)] stays empty until Position is added this way, and
    then holds the entity after exactly one [init]. *)
Theorem addComponentToEntity_spec σ this entity component :
  let r := addComponentToEntity this entity component σ in
  let holding := Entity._components (Entity.add component (entity_at σ entity)) in
  completion r = Normal ()
  ∧ (∀ ev, ev ∈ calls r → Entity._components (entity_at (seen ev) entity) = holding)
  ∧ Entity._components (entity_at (heap_after r) entity) = holding
  ∧ (∀ s e h b, EvTest s e h b ∈ calls r →
       e = entity ∧ s ∈ Scene._systems (scene_at σ this)
       ∧ (entity ∉ System.entities (system_at h s))
       ∧ b = System.test (system_at h s) (entity_at h entity))
  ∧ (∀ s, s ∈ Scene._systems (scene_at σ this) →
       entity ∉ System.entities (system_at σ s) → tested r s entity)
  ∧ inits (calls r) = hits (tests (calls r))
  ∧ NoDup (inits (calls r))
  ∧ (∀ s, System.entities (system_at (heap_after r) s)
          = System.entities (system_at σ s) ++ matched_by s (calls r))
  ∧ Entity._systems (entity_at (heap_after r) entity)
    = Entity._systems (entity_at σ entity) ++ (inits (calls r)).*1
  ∧ (let r1 := (addEntity 0 1 None;; addSystem 0 10) world in
     let r2 := addComponentToEntity 0 1 Position (heap_after r1) in
     System.entities (system_at (heap_after r1) 10) = []
     ∧ inits (calls r1) = []
     ∧ System.entities (system_at (heap_after r2) 10) = [1]
     ∧ inits (calls r2) = [(10, 1)]).
Proof.
  intros r holding.
  destruct (addComponentToEntity_run σ this entity component) as [Hc HS]. fold r in Hc, HS.
  destruct (component_added_arrays σ entity component) as [He Hs].
  destruct (Scan_frame _ _ _ _ _ HS) as (Hfe & Hfs & _).
  destruct (Scan_seen (λ h, Entity._components (entity_at h entity) = holding)
              _ _ _ _ _ (λ s e h, eq_trans (components_link_heap s e h entity)) HS)
    as [Hseen Hend].
  { by rewrite entity_at_update_entity, decide_True. }
  split_and!.
  - exact Hc.
  - exact Hseen.
  - exact Hend.
  - intros s e h b Hev.
    destruct (Scan_tests _ _ _ _ _ _ _ _ _ HS Hev) as (Hin & Hb & Hguard).
    apply list_elem_of_fmap in Hin as (s' & Heq & Hin). simplify_eq.
    split_and!; [done | done | by apply Hguard | done].
  - intros s Hin Hnew. apply (Scan_guarded_complete _ _ _ _ _ _ HS).
    + apply list_elem_of_fmap. by exists s.
    + by rewrite Hs.
  - exact (Scan_inits _ _ _ _ _ HS).
  - exact (proj1 (Scan_guarded_once _ _ _ _ HS)).
  - intros s. rewrite Hfs. cbn. by rewrite Hs.
  - rewrite (Scan_one_entity _ _ _ _ _ _ HS). by rewrite He.
  - vm_compute. by split_and!.
Qed.

(** ** Entity.dispatch *)

Lemma Entity_dispatch_loop this funcName param systems σ :
  for_of systems (λ system,
    callable ← read (λ σ, System.is_function (system_at σ system) funcName);
    if callable : bool then call_hook system funcName this param else mret ()) σ =
  MkRun (Normal ()) σ
    ((λ s, EvHook s funcName this param σ) <$>
       filter (λ s, System.is_function (system_at σ s) funcName = true) systems).
Proof.
  match goal with |- context [for_of _ ?b] => set (body := b) end.
  induction systems as [|s systems IH]; [reflexivity|].
  assert (body s σ =
          MkRun (Normal ()) σ
            (if System.is_function (system_at σ s) funcName
             then [EvHook s funcName this param σ] else [])) as Hb.
  { unfold body. run_step. by destruct (System.is_function _ _). }
  rewrite for_of_cons, Hb. cbn [completion heap_after calls]. rewrite IH.
  cbn [completion heap_after calls]. f_equal.
  rewrite filter_cons.
  destruct (System.is_function (system_at σ s) funcName) eqn:Hf.
  - by rewrite decide_True.
  - by rewrite decide_False.
Qed.

(** C6. For a hook name (any name but the three inherited members whose
    call throws), [entity.dispatch(funcName, param)] calls the hook
    [funcName], with the entity and [param], on the systems of the
    entity's [_systems] array for which [funcName] is a function, in the
    order of that array, which is the order in which the systems started
    matching the entity; it changes nothing and returns nothing.  In the
    scene
    [late_match] the movement system was added first but matched last:
    [update] reaches it last, and [draw], which it does not define, not
    at all. *)
Theorem Entity_dispatch_spec σ this funcName param :
  hook_name funcName →
  let r := Entity_dispatch this funcName param σ in
  completion r = Normal ()
  ∧ heap_after r = σ
  ∧ calls r =
    (λ s, EvHook s funcName this param σ) <$>
      filter (λ s, System.is_function (system_at σ s) funcName = true)
             (Entity._systems (entity_at σ this))
  ∧ (let σ3 := heap_after late_match in
     Scene._systems (scene_at σ3 0) = [10; 11]
     ∧ Entity._systems (entity_at σ3 1) = [11; 10]
     ∧ hooked (calls (Entity_dispatch 1 "update" (VNumber 16) σ3)) = [11; 10]
     ∧ hooked (calls (Entity_dispatch 1 "draw" VUndefined σ3)) = [11]).
Proof.
  intros _ r. unfold r, Entity_dispatch. run_step.
  rewrite Entity_dispatch_loop. cbn [completion heap_after calls].
  split; [reflexivity|]. split; [reflexivity|]. split; [reflexivity|].
  vm_compute. repeat split.
Qed.

Lemma Entity_dispatch_spec_witness :
  completion (Entity_dispatch 1 "update" (VNumber 16) (heap_after late_match)) = Normal ()
  ∧ heap_after (Entity_dispatch 1 "update" (VNumber 16) (heap_after late_match))
    = heap_after late_match.
Proof.
  destruct (Entity_dispatch_spec (heap_after late_match) 1 "update" (VNumber 16)
              hook_name_update) as (Hc & Hh & _).
  split; [exact Hc | exact Hh].
Defined.

(** ** query *)

Lemma omap_cons_Some {A B} (f : A → option B) x y l :
  f x = Some y → omap f (x :: l) = y :: omap f l.
Proof. intros Hf. simpl. by rewrite Hf. Qed.

Lemma query_loop this components o ids matches σ :
  Scene._entities (scene_at σ this) = o →
  (∀ id, id ∈ ids → is_Some (PlainObject.get o id)) →
  fold_of ids (λ matches id,
    entity ← entity_of_key this id;
    holds ← read (λ σ, Entity.has components (entity_at σ entity));
    if holds : bool then mret (push entity matches) else mret matches) matches σ =
  MkRun (Normal (matches ++
                 filter (λ e, Entity.has components (entity_at σ e) = true)
                        (omap (PlainObject.get o) ids)))
        σ [].
Proof.
  intros Ho. match goal with |- context [fold_of _ ?b] => set (body := b) end.
  revert matches. induction ids as [|id ids IH]; intros matches Hids.
  - simpl. by rewrite app_nil_r.
  - destruct (Hids id) as [e He]; [left|].
    assert (body matches id σ =
            MkRun (Normal (if Entity.has components (entity_at σ e)
                           then push e matches else matches)) σ []) as Hb.
    { unfold body, entity_of_key, getEntity. repeat run_step. rewrite Ho, He.
      run_simpl. repeat run_step. by destruct (Entity.has _ _). }
    change (fold_of (id :: ids) body matches σ)
      with ((body matches id ≫= fold_of ids body) σ).
    rewrite run_bind, Hb. cbn [completion heap_after calls app].
    rewrite IH by (intros; apply Hids; by right).
    cbn [completion heap_after calls]. rewrite (omap_cons_Some _ _ _ _ He), filter_cons.
    destruct (Entity.has components (entity_at σ e)) eqn:Hh.
    + rewrite decide_True by done. unfold push. by rewrite <-app_assoc.
    + by rewrite decide_False.
Qed.

Lemma query_run σ this components :
  query this components σ =
  MkRun (Normal (filter (λ e, Entity.has components (entity_at σ e) = true)
                        (enumerated σ this)))
        σ [].
Proof.
  unfold query. run_step.
  rewrite (query_loop this components (Scene._entities (scene_at σ this)));
    [reflexivity | reflexivity | apply PlainObject_get_keys].
Qed.



(** ** The id counter *)

Lemma generateUID_run σ this :
  generateUID this σ =
  MkRun (Normal (Number_toString (Scene._count (scene_at σ this))))
        (update_scene this
           (Scene.with_count (Number_increment (Scene._count (scene_at σ this)))) σ)
        [].
Proof. unfold generateUID. by repeat run_step. Qed.

Lemma Number_increment_ge n : (n ≤ Number_increment n)%N.
Proof. unfold Number_increment. destruct (n <? max_exact)%N; lia. Qed.

Lemma for_of_heap {X} (l : list X) body σ :
  (∀ x σ, heap_after (body x σ) = σ) → heap_after (for_of l body σ) = σ.
Proof.
  intros Hbody. induction l as [|x l IH]; [done|].
  rewrite for_of_cons. cbn zeta.
  destruct (completion (body x σ)); cbn [heap_after]; rewrite ?Hbody; done.
Qed.

Lemma dispatch_heap σ this funcName param :
  heap_after (dispatch this funcName param σ) = σ.
Proof.
  unfold dispatch. run_step. apply for_of_heap. intros system h. run_step.
  destruct (System.is_function _ _); [|done]. run_step.
  apply for_of_heap. done.
Qed.

Lemma Entity_dispatch_heap σ this funcName param :
  heap_after (Entity_dispatch this funcName param σ) = σ.
Proof. unfold Entity_dispatch. run_step. by rewrite Entity_dispatch_loop. Qed.

(** No operation decreases the counter of any scene. *)
Lemma perform_count σ op c :
  (Scene._count (scene_at σ c) ≤ Scene._count (scene_at (perform σ op) c))%N.
Proof.
  destruct op; cbn [perform].
  - done.
  - by destruct (Entity.set _ _ _).
  - by rewrite Entity_dispatch_heap.
  - rewrite generateUID_run. cbn [heap_after]. rewrite scene_at_update_scene.
    destruct (decide (this = c)) as [->|]; [apply Number_increment_ge | done].
  - destruct (addEntity_run σ this entity id) as [_ HS].
    rewrite (scene_at_Scan _ _ _ _ _ c HS). unfold entity_stored.
    rewrite scene_at_update_scene.
    change (scene_at (update_entity ?e ?f ?h) ?t) with (scene_at h t).
    assert (Scene._count (scene_at σ c) ≤
            Scene._count (scene_at match id with
                                   | Some _ => σ
                                   | None => update_scene this (λ scene,
                                       Scene.with_count (Number_increment (Scene._count scene)) scene) σ
                                   end c))%N as Hle.
    { destruct id; [done|]. rewrite scene_at_update_scene.
      destruct (decide (this = c)) as [->|]; [apply Number_increment_ge | done]. }
    destruct (decide (this = c)) as [->|]; exact Hle.
  - by rewrite removeEntity_run.
  - done.
  - destruct (addSystem_run σ this system) as [_ HS].
    rewrite (scene_at_Scan _ _ _ _ _ c HS). unfold system_attached.
    change (scene_at (update_system ?e ?f ?h) ?t) with (scene_at h t).
    rewrite scene_at_update_scene. by destruct (decide (this = c)) as [->|].
  - by rewrite dispatch_heap.
  - by rewrite query_run.
  - destruct (addComponentToEntity_run σ this entity component) as [_ HS].
    by rewrite (scene_at_Scan _ _ _ _ _ c HS).
Qed.

Lemma perform_all_count ops σ c :
  (Scene._count (scene_at σ c) ≤ Scene._count (scene_at (foldl perform σ ops) c))%N.
Proof.
  revert σ. induction ops as [|op ops IH]; intros σ; [done|].
  simpl. etrans; [apply (perform_count σ op c) | apply IH].
Qed.

(** C7. While the counter is below 2^53, [generateUID] returns its
    decimal numeral and increments it.  On a fresh scene three calls in
    a row return "0", "1" and "2".  No operation on entities or scenes
    decreases a scene's counter, so whatever is done after a call of
    [generateUID], a later call on the same scene returns a different
    id. *)
Theorem generateUID_spec σ this :
  (Scene._count (scene_at σ this) < max_exact)%N →
  let r := generateUID this σ in
  completion r = Normal (Number_toString (Scene._count (scene_at σ this)))
  ∧ Scene._count (scene_at (heap_after r) this) = (Scene._count (scene_at σ this) + 1)%N
  ∧ (∀ σ0 c, scene_at σ0 c = Scene.new →
       completion ((a ← generateUID c; b ← generateUID c; d ← generateUID c;
                    mret [a; b; d]) σ0) = Normal ["0"; "1"; "2"])
  ∧ (∀ σ1 op c,
       (Scene._count (scene_at σ1 c) ≤ Scene._count (scene_at (perform σ1 op) c))%N)
  ∧ (∀ ops, completion (generateUID this (foldl perform (heap_after r) ops)) ≠ completion r).
Proof.
  intros Hrange r. subst r. rewrite (generateUID_run σ this).
  cbn [completion heap_after].
  set (σ1 := update_scene this _ σ).
  assert (Scene._count (scene_at σ1 this)
          = (Scene._count (scene_at σ this) + 1)%N) as Hnext.
  { unfold σ1. rewrite scene_at_update_scene, decide_True by done. cbn.
    unfold Number_increment. by rewrite (proj2 (N.ltb_lt _ _) Hrange). }
  split_and!.
  - reflexivity.
  - exact Hnext.
  - intros σ0 c Hnew.
    repeat (run_step; rewrite generateUID_run; cbn [completion heap_after calls]).
    rewrite !scene_at_update_scene, !decide_True by done. by rewrite Hnew.
  - exact perform_count.
  - intros ops. pose proof (perform_all_count ops σ1 this) as Hle. rewrite Hnext in Hle.
    rewrite generateUID_run. cbn [completion].
    intros Heq. injection Heq as Heq. apply (inj pretty) in Heq.
    rewrite Heq in Hle. lia.
Qed.

Lemma generateUID_spec_witness :
  completion (generateUID 0 world) = Normal "0"
  ∧ Scene._count (scene_at (heap_after (generateUID 0 world)) 0) = 1%N.
Proof.
  assert (Scene._count (scene_at world 0) < max_exact)%N as Hrange by reflexivity.
  destruct (generateUID_spec world 0 Hrange) as (Hid & Hcount & _).
  split; [exact Hid | exact Hcount].
Defined.

(** ** Entity.set *)

Lemma with_components_same (e : Entity.t) : Entity.with_components (Entity._components e) e = e.
Proof. by destruct e. Qed.

Lemma set_held component data (this : Entity.t) instance :
  Entity.get component this = Some instance →
  Entity.set component data this =
  Normal (Entity.with_components
            (<[Component.name component := data ∪ instance]> (Entity._components this))
            this).
Proof.
  intros Hget. unfold Entity.set.
  apply (map_fold_weak_ind (λ r m, r =
    Normal (Entity.with_components
              (<[Component.name component := m ∪ instance]> (Entity._components this))
              this))).
  - rewrite (left_id_L ∅ (∪)), insert_id by exact Hget.
    by rewrite with_components_same.
  - intros key v m r Hfresh ->. unfold Entity.set_key, Entity.get. cbn.
    rewrite lookup_insert_eq. cbn. rewrite insert_insert_eq.
    by rewrite insert_union_l.
Qed.

Lemma set_missing component data (this : Entity.t) :
  Entity.get component this = None →
  (data = ∅ → Entity.set component data this = Normal this)
  ∧ (data ≠ ∅ → Entity.set component data this = Throw TypeError).
Proof.
  intros Hget. unfold Entity.set.
  apply (map_fold_weak_ind (λ r m,
    (m = ∅ → r = Normal this) ∧ (m ≠ ∅ → r = Throw TypeError))).
  - split; [done | by intros []].
  - intros key v m r Hfresh [Hempty Hfull]. split.
    + by intros ?%insert_non_empty.
    + intros _. destruct (decide (m = ∅)) as [Hm|Hm].
      * rewrite (Hempty Hm). unfold Entity.set_key. by rewrite Hget.
      * by rewrite (Hfull Hm).
Qed.

(** C9, as stated, fails: with an empty field mapping [set] returns
    normally although the entity does not hold the component. *)
Lemma set_throws_iff_missing_counterexample :
  ¬ ((∃ err, Entity.set Position ∅ (Entity.new []) = Throw err)
     ↔ Entity.get Position (Entity.new []) = None).
Proof.
  intros [_ Hthrow]. destruct Hthrow as [err Herr]; [reflexivity|].
  by rewrite (proj1 (set_missing Position ∅ (Entity.new []) eq_refl) eq_refl) in Herr.
Qed.

(** C9, amended.  For a component with an [ordinary] name, an entity
    to which no component named [__proto__] was added and a [data]
    without the key [__proto__]: when the entity holds an instance of
    the component, [set(component, data)] returns normally and the
    instance becomes [data] over the old instance: every key of [data]
    has the value [data] gives it, every other field is kept; nothing
    else about the entity changes.  [set] throws exactly when the entity
    does not hold the component and [data] has at least one key; with an
    empty [data] it does nothing. *)
Theorem set_spec component data (this : Entity.t) :
  ordinary (Component.name component) →
  Entity.plain this →
  data !! "__proto__" = None →
  (∀ instance, Entity.get component this = Some instance →
     ∃ this' instance',
       Entity.set component data this = Normal this'
       ∧ Entity.get component this' = Some instance'
       ∧ (∀ key v, data !! key = Some v → instance' !! key = Some v)
       ∧ (∀ key, data !! key = None → instance' !! key = instance !! key)
       ∧ Entity.id this' = Entity.id this
       ∧ Entity._systems this' = Entity._systems this
       ∧ (∀ name, name ≠ Component.name component →
            Entity._components this' !! name = Entity._components this !! name))
  ∧ ((∃ err, Entity.set component data this = Throw err)
     ↔ Entity.get component this = None ∧ data ≠ ∅)
  ∧ (data = ∅ → Entity.set component data this = Normal this).
Proof.
  intros _ _ _. split_and!.
  - intros instance Hget. eexists _, (data ∪ instance). split_and!.
    + by apply set_held.
    + unfold Entity.get. cbn. by rewrite lookup_insert_eq.
    + intros key v Hkey. by apply lookup_union_Some_l.
    + intros key Hkey. by apply lookup_union_r.
    + done.
    + done.
    + intros name Hne. cbn. by rewrite lookup_insert_ne.
  - destruct (Entity.get component this) as [instance|] eqn:Hget.
    + rewrite (set_held _ _ _ _ Hget). split; [by intros [? ?] | by intros [? _]].
    + destruct (set_missing component data this Hget) as [Hempty Hfull].
      destruct (decide (data = ∅)) as [Hd|Hd].
      * rewrite (Hempty Hd). split; [by intros [? ?] | by intros [_ ?]].
      * rewrite (Hfull Hd). split; [done | by eexists].
  - intros ->. unfold Entity.set. by rewrite map_fold_empty.
Qed.

Lemma set_spec_witness :
  ∃ this' instance',
    Entity.set Position {[ "x" := VNumber 5 ]} (Entity.new [Position]) = Normal this'
    ∧ Entity.get Position this' = Some instance'
    ∧ instance' !! "x" = Some (VNumber 5)
    ∧ instance' !! "y" = Some (VNumber 0).
Proof.
  assert (({[ "x" := VNumber 5 ]} : gmap string value) !! "__proto__" = None) as Hkey
    by (by apply lookup_singleton_ne).
  destruct (proj1 (set_spec Position {[ "x" := VNumber 5 ]} (Entity.new [Position])
                     ordinary_Position eq_refl Hkey)
              (Component.construct Position) eq_refl)
    as (this' & instance' & Hset & Hget & Hnew & Hold & _).
  exists this', instance'.
  split; [exact Hset|]. split; [exact Hget|]. split.
  - apply Hnew. reflexivity.
  - rewrite Hold; reflexivity.
Defined.

(** ** What the calls of addEntity and addSystem see *)

Lemma pretty_N_go_length x s :
  (String.length s ≤ String.length (pretty_N_go x s))%nat.
Proof.
  revert s. induction (N.lt_wf_0 x) as [x _ IH]; intros s.
  destruct (decide (x = 0)%N) as [->|Hx]; [by rewrite pretty_N_go_0|].
  rewrite pretty_N_go_step by lia.
  etrans; [|apply IH, N.div_lt; lia]. simpl. lia.
Qed.

Lemma Number_toString_nonempty n : Number_toString n ≠ "".
Proof.
  unfold Number_toString, pretty, pretty_N. case_decide as Hn; [done|].
  rewrite pretty_N_go_step by lia. intros Heq.
  pose proof (pretty_N_go_length (n `div` 10) (String (pretty_N_char (n `mod` 10)) "")) as Hlen.
  rewrite Heq in Hlen. simpl in Hlen. lia.
Qed.

Lemma elem_of_inits (s e : ref) h L : EvInit s e h ∈ L → (s, e) ∈ inits L.
Proof. intros Hin. apply list_elem_of_omap. by exists (EvInit s e h). Qed.

Lemma Scan_subjects guarded ps σ σ' L ev :
  Scan guarded ps σ σ' L → ev ∈ L →
  match ev with
  | EvTest s e _ _ | EvInit s e _ => (s, e) ∈ ps
  | _ => False
  end.
Proof.
  intros HS Hev. destruct ev as [s e h b|s e h| |].
  - by destruct (Scan_tests _ _ _ _ _ _ _ _ _ HS Hev).
  - by apply (Scan_inits_pairs _ _ _ _ _ _ HS), (elem_of_inits _ _ h).
  - exact (Scan_events _ _ _ _ _ _ HS Hev).
  - exact (Scan_events _ _ _ _ _ _ HS Hev).
Qed.

(** C10, as stated, fails: with the explicit id "" every call that
    [addEntity] makes sees the entity with an empty id. *)
Lemma hooks_see_nonempty_id_counterexample :
  let r := addEntity 0 1 (Some "") (heap_after (addSystem 0 11 world)) in
  ¬ (∀ ev, ev ∈ calls r → Entity.id (entity_at (seen ev) 1) ≠ "").
Proof.
  intros r Hall.
  assert ((λ ev, Entity.id (entity_at (seen ev) 1)) <$> calls r = [""; ""]) as Hids
    by (vm_compute; reflexivity).
  destruct (calls r) as [|ev L]; [discriminate|].
  injection Hids as Hid _. apply (Hall ev); [by left | exact Hid].
Qed.

(** C10, amended.  [addEntity] makes only calls of [test] and [init] on
    the entity, and each of them sees the entity with the id it has when
    [addEntity] returns and stored in the mapping under that id; the id
    is not empty unless the caller passed the empty string.  [addSystem]
    makes only calls of [test] and [init] of the system, and each of
    them sees the system with [scene] set and listed among the systems
    of the scene. *)
Theorem hooks_see_linked_state σ this :
  (∀ entity id,
     let r := addEntity this entity id σ in
     let key := assigned_id σ this id in
     Entity.id (entity_at (heap_after r) entity) = key
     ∧ (id ≠ Some "" → key ≠ "")
     ∧ ∀ ev, ev ∈ calls r →
         match ev with EvTest _ e _ _ | EvInit _ e _ => e = entity | _ => False end
         ∧ Entity.id (entity_at (seen ev) entity) = key
         ∧ PlainObject.get (Scene._entities (scene_at (seen ev) this)) key = Some entity)
  ∧ (∀ system,
     let r := addSystem this system σ in
     ∀ ev, ev ∈ calls r →
       match ev with EvTest s _ _ _ | EvInit s _ _ => s = system | _ => False end
       ∧ System.scene (system_at (seen ev) system) = Some this
       ∧ system ∈ Scene._systems (scene_at (seen ev) this)).
Proof.
  split.
  - intros entity id r key.
    destruct (addEntity_run σ this entity id) as [_ HS]. fold r in HS.
    edestruct (Scan_seen
      (λ h, Entity.id (entity_at h entity) = key
            ∧ PlainObject.get (Scene._entities (scene_at h this)) key = Some entity))
      as [Hseen [Hend _]]; [|exact HS| |].
    { intros s e h [Hid Hget]. split; [|exact Hget].
      rewrite entity_at_link_heap. by destruct (decide (e = entity)) as [->|]. }
    { split; [apply entity_stored_id | apply entity_stored_get]. }
    split_and!; [exact Hend | |].
    + unfold key. destruct id as [id|]; simpl; [congruence|].
      intros _. apply Number_toString_nonempty.
    + intros ev Hev. destruct (Hseen ev Hev) as [Hid Hget]. split_and!; [|done|done].
      pose proof (Scan_subjects _ _ _ _ _ _ HS Hev) as Hsub.
      destruct ev; try done;
        apply list_elem_of_fmap in Hsub as (? & ? & _); by simplify_eq.
  - intros system r ev Hev.
    destruct (addSystem_run σ this system) as [_ HS]. fold r in HS.
    edestruct (Scan_seen
      (λ h, System.scene (system_at h system) = Some this
            ∧ system ∈ Scene._systems (scene_at h this)))
      as [Hseen _]; [|exact HS| |].
    { intros s e h [Hsc Hin]. split; [|exact Hin].
      rewrite system_at_link_heap. by destruct (decide (s = system)) as [->|]. }
    { unfold system_attached. split.
      - by rewrite system_at_update_system, decide_True.
      - change (scene_at (update_system ?e ?f ?h) ?t) with (scene_at h t).
        rewrite scene_at_update_scene, decide_True by done. cbn.
        apply elem_of_app. right. by left. }
    destruct (Hseen ev Hev) as [Hsc Hin]. split_and!; [|done|done].
    pose proof (Scan_subjects _ _ _ _ _ _ HS Hev) as Hsub.
    destruct ev; try done;
      apply list_elem_of_fmap in Hsub as (? & ? & _); by simplify_eq.
Qed.

(** ** Symmetry across all operations *)

Lemma set_keeps_systems component data (this this' : Entity.t) :
  Entity.set component data this = Normal this' →
  Entity._systems this' = Entity._systems this.
Proof.
  destruct (Entity.get component this) as [instance|] eqn:Hget.
  - rewrite (set_held _ _ _ _ Hget). by intros [= <-].
  - destruct (set_missing component data this Hget) as [Hempty Hfull].
    destruct (decide (data = ∅)) as [Hd|Hd].
    + rewrite (Hempty Hd). by intros [= <-].
    + by rewrite (Hfull Hd).
Qed.

(** Every operation keeps the two arrays in agreement. *)
Lemma perform_symmetric σ op : symmetric σ → symmetric (perform σ op).
Proof.
  intros Hsym. destruct op; cbn [perform].
  - destruct (component_added_arrays σ entity component) as [He Hs].
    by apply (symmetric_same_arrays σ).
  - destruct (Entity.set _ _ _) as [e'|] eqn:Hset; [|done].
    apply (symmetric_same_arrays σ); [|done|done].
    intros e. rewrite entity_at_update_entity.
    destruct (decide (entity = e)) as [->|]; [|done].
    by apply (set_keeps_systems component data).
  - by rewrite Entity_dispatch_heap.
  - by rewrite generateUID_run.
  - destruct (addEntity_run σ this entity id) as [_ HS].
    apply (Scan_symmetric _ _ _ _ _ HS).
    destruct (entity_stored_arrays σ this entity id) as [He Hs].
    by apply (symmetric_same_arrays σ).
  - by rewrite removeEntity_run.
  - done.
  - destruct (addSystem_run σ this system) as [_ HS].
    apply (Scan_symmetric _ _ _ _ _ HS).
    destruct (system_attached_arrays σ this system) as [He Hs].
    by apply (symmetric_same_arrays σ).
  - by rewrite dispatch_heap.
  - by rewrite query_run.
  - destruct (addComponentToEntity_run σ this entity component) as [_ HS].
    apply (Scan_symmetric _ _ _ _ _ HS).
    destruct (component_added_arrays σ entity component) as [He Hs].
    by apply (symmetric_same_arrays σ).
Qed.

(** C1. Membership symmetry: when the two membership arrays agree (an
    entity is among a system's entities exactly when the system is among
    the entity's systems, for all entities and systems), they still
    agree immediately after [addEntity], [addSystem],
    [addComponentToEntity] and [removeEntity], and after any sequence of
    operations on entities and scenes. *)
Theorem membership_symmetry σ this :
  symmetric σ →
  (∀ entity id, symmetric (heap_after (addEntity this entity id σ)))
  ∧ (∀ system, symmetric (heap_after (addSystem this system σ)))
  ∧ (∀ entity component,
       symmetric (heap_after (addComponentToEntity this entity component σ)))
  ∧ (∀ entity, symmetric (heap_after (removeEntity this entity σ)))
  ∧ (∀ ops, symmetric (foldl perform σ ops)).
Proof.
  intros Hsym. split_and!.
  - intros entity id. exact (perform_symmetric σ (OpAddEntity this entity id) Hsym).
  - intros system. exact (perform_symmetric σ (OpAddSystem this system) Hsym).
  - intros entity component.
    exact (perform_symmetric σ (OpAddComponentToEntity this entity component) Hsym).
  - intros entity. exact (perform_symmetric σ (OpRemoveEntity this entity) Hsym).
  - intros ops. revert σ Hsym. induction ops as [|op ops IH]; intros σ Hsym; [done|].
    simpl. by apply IH, perform_symmetric.
Qed.

Lemma membership_symmetry_witness :
  symmetric world
  ∧ symmetric (heap_after (addSystem 0 11 world))
  ∧ symmetric (heap_after (addEntity 0 1 None (heap_after (addSystem 0 11 world)))).
Proof.
  assert (symmetric world) as H0.
  { apply symmetric_detached; apply (bool_decide_unpack _); vm_compute; exact I. }
  pose proof (membership_symmetry world 0 H0) as (_ & H1 & _ & _).
  split_and!; [exact H0 | exact (H1 11) |].
  exact (proj1 (membership_symmetry _ 0 (H1 11)) 1 None).
Defined.

(** * Further properties of the classes *)

(** ** Entity: add, get, has and the constructor *)

Lemma get_add_same component other (this : Entity.t) :
  Component.name other = Component.name component →
  Entity.get other (Entity.add component this) = Some (Component.construct component).
Proof.
  intros Hname. unfold Entity.get, Entity.add. cbn. rewrite Hname.
  apply lookup_insert_eq.
Qed.

Lemma get_add_other component other (this : Entity.t) :
  Component.name other ≠ Component.name component →
  Entity.get other (Entity.add component this) = Entity.get other this.
Proof.
  intros Hname. unfold Entity.get, Entity.add. cbn. by rewrite lookup_insert_ne.
Qed.


Lemma defined_held name (this : Entity.t) :
  is_Some (Entity._components this !! name) → Entity.defined name this = true.
Proof. unfold Entity.defined. by intros [instance ->]. Qed.

Lemma defined_ordinary name (this : Entity.t) :
  ordinary name →
  Entity.defined name this = true ↔ is_Some (Entity._components this !! name).
Proof.
  intros Hname. unfold Entity.defined.
  destruct (Entity._components this !! name) as [instance|].
  - split; eauto.
  - rewrite bool_decide_eq_false_2 by exact Hname.
    split; [done | by intros [? ?]].
Qed.

Lemma defined_inherited name (this : Entity.t) :
  name ∈ Object_prototype_names → Entity.defined name this = true.
Proof.
  intros Hname. unfold Entity.defined.
  destruct (Entity._components this !! name); [done|].
  by apply bool_decide_eq_true_2.
Qed.

Lemma has_defined components (this : Entity.t) :
  Entity.has components this = true ↔
  ∀ component, component ∈ components →
    Entity.defined (Component.name component) this = true.
Proof.
  induction components as [|c cs IH]; simpl.
  - split; [by intros _ ? ?%elem_of_nil | done].
  - destruct (Entity.defined (Component.name c) this) eqn:Hc.
    + rewrite IH. split.
      * intros Hall component [->|Hin]%elem_of_cons; [done | auto].
      * intros Hall component Hin. apply Hall. by right.
    + split; [done|]. intros Hall. rewrite <-Hc. apply Hall. by left.
Qed.

Lemma has_Forall components (this : Entity.t) :
  Forall (λ component, ordinary (Component.name component)) components →
  Entity.has components this = true ↔
  ∀ component, component ∈ components → is_Some (Entity.get component this).
Proof.
  intros Hnames. rewrite has_defined. unfold Entity.get.
  rewrite Forall_forall in Hnames. split.
  - intros Hall component Hin. apply defined_ordinary; auto.
  - intros Hall component Hin. apply defined_held. auto.
Qed.

Lemma defined_add_mono name component (this : Entity.t) :
  Entity.defined name this = true →
  Entity.defined name (Entity.add component this) = true.
Proof.
  unfold Entity.defined, Entity.add. cbn.
  destruct (decide (Component.name component = name)) as [->|Hne].
  - by rewrite lookup_insert_eq.
  - by rewrite lookup_insert_ne.
Qed.

Lemma defined_add component (this : Entity.t) :
  Entity.defined (Component.name component) (Entity.add component this) = true.
Proof. apply defined_held. unfold Entity.add. cbn. rewrite lookup_insert_eq. eauto. Qed.

Lemma has_add_mono components component (this : Entity.t) :
  Entity.has components this = true →
  Entity.has components (Entity.add component this) = true.
Proof.
  rewrite !has_defined. intros Hall c Hin. by apply defined_add_mono, Hall.
Qed.

Lemma has_app components more (this : Entity.t) :
  Entity.has (components ++ more) this
  = Entity.has components this && Entity.has more this.
Proof.
  induction components as [|c cs IH]; simpl; [done|].
  by destruct (Entity.defined (Component.name c) this).
Qed.

(** For components with [ordinary] names, [has(...components)] is
    true exactly when the entity holds an instance for the name of every
    component given.  A component named like a member every object
    inherits counts as held whether or not it is.  [has] is true of a
    component just added, and [add] never makes it false. *)
Theorem has_spec components (this : Entity.t) :
  Forall (λ component, ordinary (Component.name component)) components →
  Entity.plain this →
  (Entity.has components this = true ↔
   ∀ component, component ∈ components → is_Some (Entity.get component this))
  ∧ (∀ component, Component.name component ∈ Object_prototype_names →
       Entity.has [component] this = true)
  ∧ (∀ component, Entity.has [component] (Entity.add component this) = true)
  ∧ (∀ component, Entity.has components this = true →
       Entity.has components (Entity.add component this) = true)
  ∧ (∀ more, Entity.has (components ++ more) this
             = Entity.has components this && Entity.has more this).
Proof.
  intros Hnames _.
  split; [by apply has_Forall|].
  split; [intros component Hname; simpl; by rewrite defined_inherited|].
  split; [intros component; simpl; by rewrite defined_add|].
  split; [intros; by apply has_add_mono | intros; apply has_app].
Qed.

Lemma has_spec_witness :
  Entity.has [Position] (Entity.new []) = false
  ∧ Entity.has [Component.make "constructor" ∅] (Entity.new []) = true.
Proof.
  assert (Forall (λ component, ordinary (Component.name component)) [Position]) as Hnames
    by (repeat constructor; exact ordinary_Position).
  assert (Entity.plain (Entity.new [])) as Hplain by reflexivity.
  destruct (has_spec [Position] (Entity.new []) Hnames Hplain) as (Hiff & Hinherited & _).
  split.
  - destruct (Entity.has [Position] (Entity.new [])) eqn:Hhas; [|done].
    destruct (proj1 Hiff eq_refl Position) as [instance Hget]; [by left|].
    discriminate Hget.
  - apply Hinherited. apply (bool_decide_unpack _). reflexivity.
Defined.

Lemma new_snoc components component :
  Entity.new (components ++ [component]) = Entity.add component (Entity.new components).
Proof. unfold Entity.new. by rewrite foldl_app. Qed.

(** [new Entity(...components)] has the empty id and no systems and
    has every component given.  When none of them is named [__proto__],
    [get] of a component with an [ordinary] name, or with the name of
    one of them, returns the instance of the last component given with
    that name, and [undefined] when there is none. *)
Theorem Entity_new_spec components :
  Forall (λ component, Component.name component ≠ "__proto__") components →
  Entity.id (Entity.new components) = ""
  ∧ Entity._systems (Entity.new components) = []
  ∧ Entity.has components (Entity.new components) = true
  ∧ Entity.plain (Entity.new components)
  ∧ (∀ component,
       ordinary (Component.name component)
       ∨ Component.name component ∈ Component.name <$> components →
       Entity.get component (Entity.new components) =
       Component.construct <$>
         last (filter (λ c, Component.name c = Component.name component) components)).
Proof.
  intros Hnames.
  assert (∀ component,
       Entity.get component (Entity.new components) =
       Component.construct <$>
         last (filter (λ c, Component.name c = Component.name component) components)) as Hget.
  { clear Hnames. induction components as [|c cs IH] using rev_ind; intros component.
    - apply lookup_empty.
    - rewrite new_snoc, filter_app, filter_cons, filter_nil.
      destruct (decide (Component.name c = Component.name component)) as [Heq|Hne].
      + rewrite last_snoc. by apply get_add_same.
      + rewrite app_nil_r, <-IH. by apply get_add_other. }
  split_and!.
  - clear. induction components as [|c cs IH] using rev_ind; [done|]. by rewrite new_snoc.
  - clear. induction components as [|c cs IH] using rev_ind; [done|]. by rewrite new_snoc.
  - clear. induction components as [|c cs IH] using rev_ind; [done|].
    rewrite new_snoc, has_app, (has_add_mono _ _ _ IH). simpl. by rewrite defined_add.
  - clear Hget. induction components as [|c cs IH] using rev_ind; [done|].
    apply Forall_app in Hnames as [Hcs Hc]. apply Forall_inv in Hc.
    rewrite new_snoc. unfold Entity.plain, Entity.add. cbn.
    rewrite lookup_insert_ne by exact Hc. by apply IH.
  - intros component _. apply Hget.
Qed.

Lemma Entity_new_spec_witness :
  Entity.get Position (Entity.new [Position; Position]) = Some (Component.construct Position)
  ∧ Entity.get Position (Entity.new []) = None.
Proof.
  split.
  - assert (Forall (λ component, Component.name component ≠ "__proto__") [Position; Position])
      as Hnames by (repeat constructor; discriminate).
    destruct (Entity_new_spec [Position; Position] Hnames) as (_ & _ & _ & _ & Hget).
    rewrite (Hget Position (or_introl ordinary_Position)). reflexivity.
  - destruct (Entity_new_spec [] (Forall_nil_2 _)) as (_ & _ & _ & _ & Hget).
    rewrite (Hget Position (or_introl ordinary_Position)). reflexivity.
Defined.

(** ** Entity: set *)

Lemma set_Normal_inv component data (this this' : Entity.t) :
  Entity.set component data this = Normal this' →
  (∃ instance, Entity.get component this = Some instance
     ∧ this' = Entity.with_components
                 (<[Component.name component := data ∪ instance]> (Entity._components this))
                 this)
  ∨ (Entity.get component this = None ∧ data = ∅ ∧ this' = this).
Proof.
  destruct (Entity.get component this) as [instance|] eqn:Hget.
  - rewrite (set_held _ _ _ _ Hget). intros [= <-]. left. eauto.
  - destruct (set_missing component data this Hget) as [Hempty Hfull].
    destruct (decide (data = ∅)) as [Hd|Hd].
    + rewrite (Hempty Hd). intros [= <-]. by right.
    + by rewrite (Hfull Hd).
Qed.



(** ** Scene: addSystem *)

Lemma matched_by_all (system : ref) L :
  (∀ p, p ∈ inits L → p.1 = system) → matched_by system L = (inits L).*2.
Proof.
  unfold matched_by. induction (inits L) as [|[s e] l IH]; intros Hall; [done|].
  simpl. rewrite decide_True by (apply (Hall (s, e)); by left).
  f_equal. apply IH. intros p Hp. apply Hall. by right.
Qed.

Lemma matched_by_none (s : ref) L :
  (∀ p, p ∈ inits L → p.1 ≠ s) → matched_by s L = [].
Proof.
  unfold matched_by. induction (inits L) as [|[s' e] l IH]; intros Hall; [done|].
  simpl. rewrite decide_False by (apply (Hall (s', e)); by left).
  apply IH. intros p Hp. apply Hall. by right.
Qed.

Lemma system_attached_scene σ this system (c : ref) :
  scene_at (system_attached this system σ) c =
  if decide (this = c)
  then Scene.with_systems (Scene._systems (scene_at σ this) ++ [system]) (scene_at σ this)
  else scene_at σ c.
Proof.
  unfold system_attached.
  change (scene_at (update_system ?e ?f ?h) ?t) with (scene_at h t).
  by rewrite scene_at_update_scene.
Qed.

Lemma system_attached_system σ this system (s : ref) :
  system_at (system_attached this system σ) s =
  if decide (system = s) then System.with_scene (Some this) (system_at σ system)
  else system_at σ s.
Proof. unfold system_attached. by rewrite system_at_update_system. Qed.

(** On a scene whose mapping was never assigned [__proto__],
    [addSystem(system)] appends the system to the scene's systems,
    whether or not it is listed already, and sets its [scene]; it then
    calls [test] on the entities of the mapping, in [for..in] order, and
    [init] once for every test that answered true; the system's entities
    grow by the entities initialised, in order, and each of these
    entities' systems by the system.  The mapping, the other systems and
    the other scenes are untouched. *)
Theorem addSystem_spec σ this system :
  PlainObject.plain (Scene._entities (scene_at σ this)) →
  let r := addSystem this system σ in
  completion r = Normal ()
  ∧ Scene._systems (scene_at (heap_after r) this)
    = Scene._systems (scene_at σ this) ++ [system]
  ∧ Scene._entities (scene_at (heap_after r) this) = Scene._entities (scene_at σ this)
  ∧ (∀ c, c ≠ this → scene_at (heap_after r) c = scene_at σ c)
  ∧ System.scene (system_at (heap_after r) system) = Some this
  ∧ (tests (calls r)).*1 = (λ e, (system, e)) <$> enumerated σ this
  ∧ answers_are_tests r
  ∧ inits (calls r) = hits (tests (calls r))
  ∧ System.entities (system_at (heap_after r) system)
    = System.entities (system_at σ system) ++ (inits (calls r)).*2
  ∧ (∀ s, s ≠ system → system_at (heap_after r) s = system_at σ s)
  ∧ (∀ e, Entity._systems (entity_at (heap_after r) e)
          = Entity._systems (entity_at σ e) ++ members_of e (calls r)).
Proof.
  intros _ r. destruct (addSystem_run σ this system) as [Hc HS]. fold r in Hc, HS.
  destruct (Scan_frame _ _ _ _ _ HS) as (Hfe & Hfs & _).
  assert (∀ p, p ∈ inits (calls r) → p.1 = system) as Hfst.
  { intros p Hp. apply (Scan_inits_pairs _ _ _ _ _ _ HS) in Hp.
    by apply list_elem_of_fmap in Hp as (e & -> & _). }
  split_and!.
  - exact Hc.
  - rewrite (scene_at_Scan _ _ _ _ _ this HS), system_attached_scene.
    by rewrite decide_True.
  - rewrite (scene_at_Scan _ _ _ _ _ this HS), system_attached_scene.
    by rewrite decide_True.
  - intros c Hc'. rewrite (scene_at_Scan _ _ _ _ _ c HS), system_attached_scene.
    by rewrite decide_False.
  - rewrite Hfs, system_attached_system. by rewrite decide_True.
  - exact (Scan_tests_unguarded _ _ _ _ HS).
  - intros s e h b Hev. by destruct (Scan_tests _ _ _ _ _ _ _ _ _ HS Hev) as (_ & ? & _).
  - exact (Scan_inits _ _ _ _ _ HS).
  - rewrite Hfs, system_attached_system, decide_True by done. cbn.
    by rewrite (matched_by_all _ _ Hfst).
  - intros s Hs. rewrite Hfs, system_attached_system, decide_False by done.
    rewrite matched_by_none; [apply with_entities_same|].
    intros p Hp. by rewrite (Hfst p Hp).
  - intros e. rewrite Hfe. cbn. done.
Qed.

Lemma addSystem_spec_witness :
  let σ := heap_after ((addEntity 0 1 None;; addEntity 0 2 (Some "constructor")) world) in
  let r := addSystem 0 10 σ in
  completion r = Normal ()
  ∧ (tests (calls r)).*1 = [(10, 1); (10, 2)]
  ∧ System.entities (system_at (heap_after r) 10) = [2].
Proof.
  intros σ r.
  assert (PlainObject.plain (Scene._entities (scene_at σ 0))) as Hplain
    by (vm_compute; reflexivity).
  destruct (addSystem_spec σ 0 10 Hplain)
    as (Hc & _ & _ & _ & _ & Htests & _ & Hinits & Hentities & _).
  split; [exact Hc|]. split.
  - unfold r. rewrite Htests. vm_compute. reflexivity.
  - unfold r. rewrite Hentities, Hinits.
    assert (tests (calls (addSystem 0 10 σ)) = [(10, 1, false); (10, 2, true)]) as ->
      by (vm_compute; reflexivity).
    vm_compute. reflexivity.
Defined.

(** Nothing stops a system from being added twice, to the same scene or
    to another: it is then listed by both scenes, twice when they are
    the same, its [scene] is the scene of the last call, and it keeps the
    entities it held. *)
Theorem addSystem_again σ this this' system :
  let σ1 := heap_after (addSystem this system σ) in
  let σ2 := heap_after (addSystem this' system σ1) in
  System.scene (system_at σ2 system) = Some this'
  ∧ system ∈ Scene._systems (scene_at σ2 this)
  ∧ system ∈ Scene._systems (scene_at σ2 this')
  ∧ (this' = this →
     Scene._systems (scene_at σ2 this) = Scene._systems (scene_at σ this) ++ [system; system])
  ∧ System.entities (system_at σ1 system) `prefix_of` System.entities (system_at σ2 system).
Proof.
  intros σ1 σ2.
  destruct (addSystem_run σ this system) as [_ HS1]. fold σ1 in HS1.
  destruct (addSystem_run σ1 this' system) as [_ HS2]. fold σ2 in HS2.
  destruct (Scan_frame _ _ _ _ _ HS2) as (_ & Hfs & _).
  assert (Scene._systems (scene_at σ1 this) = Scene._systems (scene_at σ this) ++ [system])
    as H1.
  { rewrite (scene_at_Scan _ _ _ _ _ this HS1), system_attached_scene.
    by rewrite decide_True. }
  assert (∀ c, Scene._systems (scene_at σ2 c) =
               if decide (this' = c) then Scene._systems (scene_at σ1 this') ++ [system]
               else Scene._systems (scene_at σ1 c)) as H2.
  { intros c. rewrite (scene_at_Scan _ _ _ _ _ c HS2), system_attached_scene.
    by destruct (decide (this' = c)). }
  split_and!.
  - rewrite Hfs, system_attached_system. by rewrite decide_True.
  - rewrite H2. destruct (decide (this' = this)) as [->|].
    + apply elem_of_app. right. by left.
    + rewrite H1. apply elem_of_app. right. by left.
  - rewrite H2, decide_True by done. apply elem_of_app. right. by left.
  - intros ->. rewrite H2, decide_True by done. by rewrite H1, <-app_assoc.
  - rewrite Hfs, system_attached_system, decide_True by done. cbn.
    by apply prefix_app_r.
Qed.

(** ** Scene: dispatch *)

Lemma hook_loop system funcName param entities σ :
  for_of entities (λ entity, call_hook system funcName entity param) σ =
  MkRun (Normal ()) σ ((λ e, EvHook system funcName e param σ) <$> entities).
Proof.
  induction entities as [|e entities IH]; [reflexivity|].
  rewrite for_of_cons. cbn [call_hook completion heap_after calls]. by rewrite IH.
Qed.

Lemma dispatch_loop funcName param systems σ :
  for_of systems (λ system,
    callable ← read (λ σ, System.is_function (system_at σ system) funcName);
    if callable : bool then
      entities ← read (λ σ, System.entities (system_at σ system));
      for_of entities (λ entity, call_hook system funcName entity param)
    else mret ()) σ =
  MkRun (Normal ()) σ
    (mjoin ((λ s, (λ e, EvHook s funcName e param σ) <$> System.entities (system_at σ s))
             <$> filter (λ s, System.is_function (system_at σ s) funcName = true) systems)).
Proof.
  match goal with |- context [for_of _ ?b] => set (body := b) end.
  induction systems as [|s systems IH]; [reflexivity|].
  assert (body s σ =
          MkRun (Normal ()) σ
            (if System.is_function (system_at σ s) funcName
             then (λ e, EvHook s funcName e param σ) <$> System.entities (system_at σ s)
             else [])) as Hb.
  { unfold body. run_step. destruct (System.is_function _ _); [|done].
    run_step. rewrite hook_loop. done. }
  rewrite for_of_cons, Hb. cbn [completion heap_after calls]. rewrite IH.
  cbn [completion heap_after calls]. f_equal. rewrite filter_cons.
  destruct (System.is_function (system_at σ s) funcName) eqn:Hf.
  - by rewrite decide_True.
  - by rewrite decide_False.
Qed.

Lemma dispatch_run σ this funcName param :
  dispatch this funcName param σ =
  MkRun (Normal ()) σ
    (mjoin ((λ s, (λ e, EvHook s funcName e param σ) <$> System.entities (system_at σ s))
             <$> filter (λ s, System.is_function (system_at σ s) funcName = true)
                        (Scene._systems (scene_at σ this)))).
Proof. unfold dispatch. run_step. by rewrite dispatch_loop. Qed.


Lemma elem_of_dispatch σ this funcName param ev :
  ev ∈ calls (dispatch this funcName param σ) ↔
  ∃ s e, ev = EvHook s funcName e param σ
         ∧ s ∈ Scene._systems (scene_at σ this)
         ∧ System.is_function (system_at σ s) funcName = true
         ∧ e ∈ System.entities (system_at σ s).
Proof.
  rewrite dispatch_run. cbn [calls]. rewrite list_elem_of_join. split.
  - intros (l & Hev & Hl). apply list_elem_of_fmap in Hl as (s & -> & Hs).
    apply list_elem_of_filter in Hs as [Hf Hs].
    apply list_elem_of_fmap in Hev as (e & -> & He). by exists s, e.
  - intros (s & e & -> & Hs & Hf & He).
    exists ((λ e, EvHook s funcName e param σ) <$> System.entities (system_at σ s)). split.
    + apply list_elem_of_fmap. by exists e.
    + apply list_elem_of_fmap. exists s. split; [done|].
      by apply list_elem_of_filter.
Qed.


(** For a hook name (any name but the three inherited members whose
    call throws), [scene.dispatch(funcName, param)] goes through the
    systems of the scene in order and, for each one for which [funcName]
    is a function, calls it on the system's entities in their order,
    with [param]; it changes nothing and returns nothing.  A system
    without the function, or without entities, is passed over. *)
Theorem dispatch_spec σ this funcName param :
  hook_name funcName →
  let r := dispatch this funcName param σ in
  completion r = Normal ()
  ∧ heap_after r = σ
  ∧ calls r =
    mjoin ((λ s, (λ e, EvHook s funcName e param σ) <$> System.entities (system_at σ s))
            <$> filter (λ s, System.is_function (system_at σ s) funcName = true)
                       (Scene._systems (scene_at σ this)))
  ∧ (∀ ev, ev ∈ calls r ↔
       ∃ s e, ev = EvHook s funcName e param σ
              ∧ s ∈ Scene._systems (scene_at σ this)
              ∧ System.is_function (system_at σ s) funcName = true
              ∧ e ∈ System.entities (system_at σ s)).
Proof.
  intros _ r. split_and!; [unfold r; by rewrite dispatch_run .. |].
  intros ev. apply elem_of_dispatch.
Qed.

Lemma dispatch_spec_witness :
  completion (dispatch 0 "update" (VNumber 16) (heap_after late_match)) = Normal ()
  ∧ hooked (calls (dispatch 0 "update" (VNumber 16) (heap_after late_match))) = [10; 11].
Proof.
  destruct (dispatch_spec (heap_after late_match) 0 "update" (VNumber 16) hook_name_update)
    as (Hc & _ & Hcalls & _).
  split; [exact Hc|]. rewrite Hcalls. vm_compute. reflexivity.
Defined.



(** ** Scene: the mapping from ids to entities *)

Lemma PlainObject_get_overwrite_ne (o : PlainObject.t) k k' v :
  k ≠ k' → PlainObject.get (PlainObject.overwrite o k v) k' = PlainObject.get o k'.
Proof.
  intros Hne. induction o as [|[k0 v0] o IH]; simpl; [done|].
  case_bool_decide as Hk; simpl.
  - subst k0. by rewrite !(bool_decide_eq_false_2 (k' = k)) by congruence.
  - by rewrite IH.
Qed.

Lemma PlainObject_get_create_ne (o : PlainObject.t) k k' v :
  k ≠ k' → PlainObject.get (PlainObject.create o k v) k' = PlainObject.get o k'.
Proof.
  intros Hne. induction o as [|[k0 v0] o IH]; simpl.
  - by rewrite bool_decide_eq_false_2 by congruence.
  - destruct (PlainObject.comes_after k k0); simpl.
    + by rewrite (bool_decide_eq_false_2 (k' = k)) by congruence.
    + by rewrite IH.
Qed.

Lemma PlainObject_get_put_ne (o : PlainObject.t) k k' v :
  k ≠ k' → PlainObject.get (PlainObject.put o k v) k' = PlainObject.get o k'.
Proof.
  intros Hne. unfold PlainObject.put. destruct (PlainObject.get o k).
  - by apply PlainObject_get_overwrite_ne.
  - by apply PlainObject_get_create_ne.
Qed.

Lemma PlainObject_get_None_keys (o : PlainObject.t) k :
  PlainObject.get o k = None ↔ k ∉ PlainObject.keys o.
Proof.
  split.
  - intros Hget Hin. apply PlainObject_get_keys in Hin as [v Hv]. congruence.
  - intros Hin. destruct (PlainObject.get o k) eqn:Hget; [|done].
    by apply PlainObject_get_Some_keys in Hget.
Qed.

Lemma PlainObject_keys_overwrite (o : PlainObject.t) k v :
  PlainObject.keys (PlainObject.overwrite o k v) = PlainObject.keys o.
Proof.
  unfold PlainObject.keys. induction o as [|[k0 v0] o IH]; simpl; [done|].
  case_bool_decide; simpl; [by subst | f_equal; exact IH].
Qed.

Lemma PlainObject_keys_create (o : PlainObject.t) k v :
  PlainObject.keys (PlainObject.create o k v) ≡ₚ k :: PlainObject.keys o.
Proof.
  unfold PlainObject.keys. induction o as [|[k0 v0] o IH]; simpl; [done|].
  destruct (PlainObject.comes_after k k0); simpl; [done|].
  etrans; [apply Permutation_skip, IH | apply Permutation_swap].
Qed.

Lemma PlainObject_put_cases (o : PlainObject.t) k v :
  (is_Some (PlainObject.get o k) ∧ PlainObject.put o k v = PlainObject.overwrite o k v)
  ∨ (PlainObject.get o k = None ∧ PlainObject.put o k v = PlainObject.create o k v).
Proof.
  unfold PlainObject.put. destruct (PlainObject.get o k); [left | right]; eauto.
Qed.

Lemma PlainObject_keys_put (o : PlainObject.t) k v k' :
  k' ∈ PlainObject.keys (PlainObject.put o k v) ↔ k' = k ∨ k' ∈ PlainObject.keys o.
Proof.
  destruct (PlainObject_put_cases o k v) as [[[v0 Hget] ->]|[Hget ->]].
  - rewrite PlainObject_keys_overwrite. split; [by right|].
    intros [->|?]; [by eapply PlainObject_get_Some_keys | done].
  - rewrite PlainObject_keys_create. apply elem_of_cons.
Qed.

Lemma PlainObject_NoDup_put (o : PlainObject.t) k v :
  NoDup (PlainObject.keys o) → NoDup (PlainObject.keys (PlainObject.put o k v)).
Proof.
  intros Hnd. destruct (PlainObject_put_cases o k v) as [[_ ->]|[Hget ->]].
  - by rewrite PlainObject_keys_overwrite.
  - rewrite PlainObject_keys_create. constructor; [|done].
    by apply PlainObject_get_None_keys.
Qed.

Lemma entity_stored_entity σ this entity id (e : ref) :
  entity_at (entity_stored this entity id σ) e =
  if decide (entity = e)
  then Entity.with_id (assigned_id σ this id) (entity_at σ entity)
  else entity_at σ e.
Proof.
  unfold entity_stored.
  change (entity_at (update_scene ?c ?f ?h) ?t) with (entity_at h t).
  rewrite entity_at_update_entity. by destruct id.
Qed.

Lemma entity_stored_entities σ this entity id (c : ref) :
  Scene._entities (scene_at (entity_stored this entity id σ) c) =
  if decide (this = c)
  then PlainObject.put (Scene._entities (scene_at σ this)) (assigned_id σ this id) entity
  else Scene._entities (scene_at σ c).
Proof.
  unfold entity_stored. rewrite scene_at_update_scene.
  change (scene_at (update_entity ?e ?f ?h) ?t) with (scene_at h t).
  destruct (decide (this = c)) as [->|Hne]; cbn.
  - destruct id; [done|]. by rewrite scene_at_update_scene, decide_True.
  - destruct id; [done|]. by rewrite scene_at_update_scene, decide_False.
Qed.

Lemma addEntity_entities σ this entity id (c : ref) :
  Scene._entities (scene_at (heap_after (addEntity this entity id σ)) c) =
  if decide (this = c)
  then PlainObject.put (Scene._entities (scene_at σ this)) (assigned_id σ this id) entity
  else Scene._entities (scene_at σ c).
Proof.
  destruct (addEntity_run σ this entity id) as [_ HS].
  rewrite (scene_at_Scan _ _ _ _ _ c HS). apply entity_stored_entities.
Qed.

Lemma addEntity_id σ this entity id (e : ref) :
  Entity.id (entity_at (heap_after (addEntity this entity id σ)) e) =
  if decide (entity = e) then assigned_id σ this id else Entity.id (entity_at σ e).
Proof.
  destruct (addEntity_run σ this entity id) as [_ HS].
  destruct (Scan_frame _ _ _ _ _ HS) as (He & _ & _).
  rewrite He, entity_stored_entity. cbn. by destruct (decide (entity = e)).
Qed.

(** On a scene whose mapping was never assigned [__proto__], and for
    an id other than [__proto__], [addEntity] writes one key of its
    scene's mapping and no other: [getEntity] of every other id, and of
    every id of another scene, answers as before.  The ids of the
    mapping are the old ones and the new one, each listed once if they
    were so before, and the mapping stays free of [__proto__].  An
    entity added again under another id stays stored under the old one,
    which is no longer its id. *)
Theorem addEntity_other_ids σ this entity id :
  PlainObject.plain (Scene._entities (scene_at σ this)) →
  assigned_id σ this id ≠ "__proto__" →
  let r := addEntity this entity id σ in
  let key := assigned_id σ this id in
  PlainObject.plain (Scene._entities (scene_at (heap_after r) this))
  ∧ (∀ id', id' ≠ key →
     completion (getEntity this id' (heap_after r)) = completion (getEntity this id' σ))
  ∧ (∀ c id', c ≠ this →
     completion (getEntity c id' (heap_after r)) = completion (getEntity c id' σ))
  ∧ (∀ id', id' ∈ PlainObject.keys (Scene._entities (scene_at (heap_after r) this)) ↔
            id' = key ∨ id' ∈ PlainObject.keys (Scene._entities (scene_at σ this)))
  ∧ (NoDup (PlainObject.keys (Scene._entities (scene_at σ this))) →
     NoDup (PlainObject.keys (Scene._entities (scene_at (heap_after r) this))))
  ∧ (∀ old, old ≠ key →
       completion (getEntity this old σ) = Normal (Some entity) →
       completion (getEntity this old (heap_after r)) = Normal (Some entity)
       ∧ Entity.id (entity_at (heap_after r) entity) ≠ old).
Proof.
  intros Hplain Hkey r key.
  assert (∀ id', id' ≠ key →
     completion (getEntity this id' (heap_after r)) = completion (getEntity this id' σ))
    as Hother.
  { intros id' Hne. unfold getEntity, read. cbn [completion]. f_equal. unfold r.
    rewrite addEntity_entities, decide_True by done.
    by apply PlainObject_get_put_ne. }
  split_and!.
  - unfold PlainObject.plain, r. rewrite addEntity_entities, decide_True by done.
    rewrite PlainObject_get_put_ne by exact Hkey. exact Hplain.
  - exact Hother.
  - intros c id' Hne. unfold getEntity, read. cbn [completion]. unfold r.
    by rewrite addEntity_entities, decide_False.
  - intros id'. unfold r. rewrite addEntity_entities, decide_True by done.
    apply PlainObject_keys_put.
  - unfold r. rewrite addEntity_entities, decide_True by done.
    apply PlainObject_NoDup_put.
  - intros old Hne Hold. split.
    + by rewrite (Hother old Hne).
    + unfold r. rewrite addEntity_id, decide_True by done. fold key. congruence.
Qed.

Lemma addEntity_other_ids_witness :
  let σ := heap_after (addEntity 0 1 (Some "a") world) in
  let r := addEntity 0 1 (Some "toString") σ in
  completion (getEntity 0 "a" (heap_after r)) = Normal (Some 1)
  ∧ Entity.id (entity_at (heap_after r) 1) ≠ "a".
Proof.
  intros σ r.
  assert (PlainObject.plain (Scene._entities (scene_at σ 0))) as Hplain
    by (vm_compute; reflexivity).
  assert (assigned_id σ 0 (Some "toString") ≠ "__proto__") as Hkey by discriminate.
  destruct (addEntity_other_ids σ 0 1 (Some "toString") Hplain Hkey)
    as (_ & _ & _ & _ & _ & Hold).
  apply (Hold "a"); [discriminate | vm_compute; reflexivity].
Defined.

(** An explicit id is not reserved: when an entity is added under the
    numeral of the scene's counter, the next entity added without an id
    receives the same id and takes its place in the mapping; both
    entities then carry that id. *)
Theorem generated_id_takes_explicit_id σ this (e1 e2 : ref) :
  let key := Number_toString (Scene._count (scene_at σ this)) in
  let σ1 := heap_after (addEntity this e1 (Some key) σ) in
  let σ2 := heap_after (addEntity this e2 None σ1) in
  completion (getEntity this key σ1) = Normal (Some e1)
  ∧ completion (getEntity this key σ2) = Normal (Some e2)
  ∧ Entity.id (entity_at σ2 e2) = key
  ∧ Entity.id (entity_at σ2 e1) = key.
Proof.
  intros key σ1 σ2.
  assert (assigned_id σ1 this None = key) as Hkey.
  { unfold assigned_id, key, σ1.
    destruct (addEntity_run σ this e1 (Some key)) as [_ HS].
    by rewrite (scene_at_Scan _ _ _ _ _ this HS), entity_stored_count. }
  split_and!.
  - unfold getEntity, read, σ1. cbn [completion].
    rewrite addEntity_entities, decide_True by done. cbn [assigned_id].
    by rewrite PlainObject_get_put.
  - unfold getEntity, read, σ2. cbn [completion].
    rewrite addEntity_entities, decide_True by done. rewrite Hkey.
    by rewrite PlainObject_get_put.
  - unfold σ2. by rewrite addEntity_id, decide_True.
  - unfold σ2. rewrite addEntity_id. destruct (decide (e2 = e1)); [done|].
    unfold σ1. by rewrite addEntity_id, decide_True.
Qed.

(** ** What no operation undoes *)

(** During a scan the components of the entities and the [test] of the
    systems stay what they were. *)
Lemma Scan_stable guarded ps σ σ' L :
  Scan guarded ps σ σ' L →
  (∀ ev, ev ∈ L →
     (∀ e, Entity._components (entity_at (seen ev) e) = Entity._components (entity_at σ e))
     ∧ (∀ s, System.test (system_at (seen ev) s) = System.test (system_at σ s)))
  ∧ (∀ e, Entity._components (entity_at σ' e) = Entity._components (entity_at σ e))
  ∧ (∀ s, System.test (system_at σ' s) = System.test (system_at σ s)).
Proof.
  intros HS.
  edestruct (Scan_seen (λ h,
    (∀ e, Entity._components (entity_at h e) = Entity._components (entity_at σ e))
    ∧ (∀ s, System.test (system_at h s) = System.test (system_at σ s))))
    as [Hseen [Hc Ht]]; [|exact HS| |by split_and!].
  - intros s e h [Hc Ht]. split.
    + intros e0. by rewrite components_link_heap.
    + intros s0. rewrite system_at_link_heap.
      destruct (decide (s = s0)) as [->|]; cbn; apply Ht.
  - done.
Qed.

(** An entity a scan gives to a system passed the system's [test], with
    the components it has when the scan ends. *)
Lemma Scan_matched guarded ps σ σ' L (s e : ref) :
  Scan guarded ps σ σ' L → e ∈ matched_by s L →
  ∃ ent, System.test (system_at σ s) ent = true
         ∧ Entity._components ent = Entity._components (entity_at σ' e).
Proof.
  intros HS Hin. destruct (Scan_stable _ _ _ _ _ HS) as (Hseen & Hc & _).
  apply elem_of_matched_by in Hin.
  rewrite (Scan_inits _ _ _ _ _ HS), elem_of_hits, elem_of_tests in Hin.
  destruct Hin as [h Hev].
  destruct (Scan_tests _ _ _ _ _ _ _ _ _ HS Hev) as (_ & Hb & _).
  destruct (Hseen _ Hev) as [Hch Hth]. cbn [seen] in Hch, Hth.
  exists (entity_at h e). split.
  - by rewrite <-Hth.
  - by rewrite Hch, Hc.
Qed.

Lemma carried_over_refl σ : carried_over σ σ.
Proof.
  split; [done|]. split; [by intros e name|]. split; [|split; [|done]].
  - intros s. exists []. split; [by rewrite app_nil_r | by intros ? ?%elem_of_nil].
  - intros e. exists []. by rewrite app_nil_r.
Qed.

Lemma carried_over_trans σ1 σ2 σ3 :
  carried_over σ1 σ2 → carried_over σ2 σ3 → carried_over σ1 σ3.
Proof.
  intros (Ht & Hc & Hs & He & Hi) (Ht' & Hc' & Hs' & He' & Hi'). split_and!.
  - intros s. by rewrite Ht', Ht.
  - intros e name Hn. by apply Hc', Hc.
  - intros s. destruct (Hs s) as (l & Hl & Hnew). destruct (Hs' s) as (l' & Hl' & Hnew').
    exists (l ++ l'). split; [by rewrite Hl', Hl, app_assoc|].
    intros e [Hin|Hin]%elem_of_app.
    + destruct (Hnew e Hin) as (ent & Htest & Hent). exists ent. split; [done|].
      intros name Hn. by apply Hc', Hent.
    + destruct (Hnew' e Hin) as (ent & Htest & Hent). exists ent. split; [|done].
      by rewrite <-Ht.
  - intros e. destruct (He e) as (l & Hl). destruct (He' e) as (l' & Hl').
    exists (l ++ l'). by rewrite Hl', Hl, app_assoc.
  - intros c id Hid. by apply Hi', Hi.
Qed.

(** A scan carries over the heap it started in. *)
Lemma Scan_carried_over guarded ps σ σ' L :
  Scan guarded ps σ σ' L → carried_over σ σ'.
Proof.
  intros HS. destruct (Scan_stable _ _ _ _ _ HS) as (_ & Hc & Ht).
  destruct (Scan_frame _ _ _ _ _ HS) as (Hfe & Hfs & Hsc).
  split_and!.
  - exact Ht.
  - intros e name. by rewrite Hc.
  - intros s. exists (matched_by s L). split; [by rewrite Hfs|].
    intros e Hin. destruct (Scan_matched _ _ _ _ _ s e HS Hin) as (ent & Htest & Hent).
    exists ent. split; [done|]. intros name. by rewrite Hent.
  - intros e. exists (members_of e L). by rewrite Hfe.
  - intros c id. unfold scene_at. by rewrite Hsc.
Qed.

(** A write that touches no membership array, no test and no id, and
    takes no component away. *)
Lemma carried_over_write σ σ' :
  (∀ s, System.test (system_at σ' s) = System.test (system_at σ s)) →
  (∀ e, holds_at_least (entity_at σ e) (entity_at σ' e)) →
  (∀ s, System.entities (system_at σ' s) = System.entities (system_at σ s)) →
  (∀ e, Entity._systems (entity_at σ' e) = Entity._systems (entity_at σ e)) →
  (∀ c id, is_Some (PlainObject.get (Scene._entities (scene_at σ c)) id) →
           is_Some (PlainObject.get (Scene._entities (scene_at σ' c)) id)) →
  carried_over σ σ'.
Proof.
  intros Ht Hc Hs He Hi.
  split; [done|]. split; [done|]. split; [|split; [|done]].
  - intros s. exists []. rewrite Hs, app_nil_r. split; [done | by intros ? ?%elem_of_nil].
  - intros e. exists []. by rewrite He, app_nil_r.
Qed.

Lemma holds_at_least_add component (this : Entity.t) :
  holds_at_least this (Entity.add component this).
Proof.
  intros name Hn. unfold Entity.add. cbn.
  destruct (decide (Component.name component = name)) as [->|Hne].
  - rewrite lookup_insert_eq. eauto.
  - by rewrite lookup_insert_ne.
Qed.

Lemma holds_at_least_set component data (this this' : Entity.t) :
  Entity.set component data this = Normal this' → holds_at_least this this'.
Proof.
  intros [(instance & Hget & ->)|(_ & _ & ->)]%set_Normal_inv; [|by intros name].
  intros name Hn. cbn.
  destruct (decide (Component.name component = name)) as [->|Hne].
  - rewrite lookup_insert_eq. eauto.
  - by rewrite lookup_insert_ne.
Qed.

Lemma entity_stored_carried_over σ this entity id :
  carried_over σ (entity_stored this entity id σ).
Proof.
  destruct (entity_stored_arrays σ this entity id) as [He Hs].
  apply carried_over_write; [ | | exact Hs | exact He | ].
  - intros s. unfold entity_stored. by destruct id.
  - intros e name. rewrite entity_stored_entity.
    by destruct (decide (entity = e)) as [->|].
  - intros c id' Hid. rewrite entity_stored_entities.
    destruct (decide (this = c)) as [->|]; [|done].
    destruct (decide (assigned_id σ c id = id')) as [->|Hne].
    + rewrite PlainObject_get_put. eauto.
    + by rewrite PlainObject_get_put_ne.
Qed.

Lemma system_attached_carried_over σ this system :
  carried_over σ (system_attached this system σ).
Proof.
  destruct (system_attached_arrays σ this system) as [He Hs].
  apply carried_over_write; [ | by intros e name | exact Hs | exact He | ].
  - intros s. rewrite system_attached_system.
    by destruct (decide (system = s)) as [->|].
  - intros c id Hid. rewrite system_attached_scene.
    by destruct (decide (this = c)) as [->|].
Qed.

Lemma update_entity_carried_over σ entity f :
  holds_at_least (entity_at σ entity) (f (entity_at σ entity)) →
  Entity._systems (f (entity_at σ entity)) = Entity._systems (entity_at σ entity) →
  carried_over σ (update_entity entity f σ).
Proof.
  intros Hc Hs. apply carried_over_write; [done | | done | | done].
  - intros e. rewrite entity_at_update_entity.
    destruct (decide (entity = e)) as [->|]; [done | by intros name].
  - intros e. rewrite entity_at_update_entity.
    by destruct (decide (entity = e)) as [->|].
Qed.

(** Every operation carries over the heap it is performed in. *)
Lemma perform_carried_over σ op : carried_over σ (perform σ op).
Proof.
  destruct op; cbn [perform].
  - apply update_entity_carried_over; [apply holds_at_least_add | done].
  - destruct (Entity.set _ _ _) as [e'|] eqn:Hset; [|apply carried_over_refl].
    apply update_entity_carried_over.
    + by apply (holds_at_least_set component data).
    + by apply (set_keeps_systems component data).
  - rewrite Entity_dispatch_heap. apply carried_over_refl.
  - rewrite generateUID_run. cbn [heap_after].
    apply carried_over_write; [done | by intros e name | done | done |].
    intros c id Hid. rewrite scene_at_update_scene.
    by destruct (decide (this = c)) as [->|].
  - destruct (addEntity_run σ this entity id) as [_ HS].
    eapply carried_over_trans; [apply entity_stored_carried_over|].
    exact (Scan_carried_over _ _ _ _ _ HS).
  - rewrite removeEntity_run. apply carried_over_refl.
  - apply carried_over_refl.
  - destruct (addSystem_run σ this system) as [_ HS].
    eapply carried_over_trans; [apply system_attached_carried_over|].
    exact (Scan_carried_over _ _ _ _ _ HS).
  - rewrite dispatch_heap. apply carried_over_refl.
  - rewrite query_run. apply carried_over_refl.
  - destruct (addComponentToEntity_run σ this entity component) as [_ HS].
    eapply carried_over_trans; [|exact (Scan_carried_over _ _ _ _ _ HS)].
    apply update_entity_carried_over; [apply holds_at_least_add | done].
Qed.

Lemma perform_all_carried_over ops σ : carried_over σ (foldl perform σ ops).
Proof.
  revert σ. induction ops as [|op ops IH]; intros σ; [apply carried_over_refl|].
  simpl. eapply carried_over_trans; [apply perform_carried_over | apply IH].
Qed.


(** No sequence of operations takes an entity out of a system's
    entities or a system out of an entity's systems: both arrays only
    ever grow at the end. *)
Theorem membership_never_shrinks σ ops :
  (∀ s, System.entities (system_at σ s)
        `prefix_of` System.entities (system_at (foldl perform σ ops) s))
  ∧ (∀ e, Entity._systems (entity_at σ e)
          `prefix_of` Entity._systems (entity_at (foldl perform σ ops) e)).
Proof.
  destruct (perform_all_carried_over ops σ) as (_ & _ & Hs & He & _). split.
  - intros s. destruct (Hs s) as (l & -> & _). by apply prefix_app_r.
  - intros e. destruct (He e) as (l & ->). by apply prefix_app_r.
Qed.



(** No sequence of operations frees an id: once [getEntity(id)] returns
    an entity it never returns undefined again. *)
Theorem ids_never_freed σ ops this id :
  is_Some (PlainObject.get (Scene._entities (scene_at σ this)) id) →
  ∃ entity, completion (getEntity this id (foldl perform σ ops)) = Normal (Some entity).
Proof.
  destruct (perform_all_carried_over ops σ) as (_ & _ & _ & _ & Hi).
  intros [entity Hget]%Hi. exists entity. unfold getEntity, read. cbn. by rewrite Hget.
Qed.

Lemma ids_never_freed_witness :
  ∃ entity,
    completion (getEntity 0 "0"
      (foldl perform (heap_after (addEntity 0 1 None world))
         [OpRemoveEntity 0 1; OpAddEntity 0 2 None])) = Normal (Some entity).
Proof.
  apply (ids_never_freed (heap_after (addEntity 0 1 None world))).
  vm_compute. eauto.
Defined.



(** A system whose [test] rejects every entity, the base [System] among
    them, never gains an entity, whatever is done. *)
Theorem rejecting_system_stays_empty σ s ops :
  (∀ ent, System.test (system_at σ s) ent = false) →
  System.entities (system_at (foldl perform σ ops) s) = System.entities (system_at σ s).
Proof.
  intros Hfalse. destruct (perform_all_carried_over ops σ) as (_ & _ & Hs & _).
  destruct (Hs s) as (l & -> & Hnew). destruct l as [|e l]; [by rewrite app_nil_r|].
  destruct (Hnew e) as (ent & Hent & _); [by left|]. by rewrite Hfalse in Hent.
Qed.

Lemma rejecting_system_stays_empty_witness :
  System.entities
    (system_at (foldl perform world [OpAddSystem 0 7; OpAddEntity 0 1 None;
                                     OpAddComponentToEntity 0 1 Position]) 7) = [].
Proof. apply (rejecting_system_stays_empty world 7). intros ent. reflexivity. Defined.

(** ** Systems that test for components keep up with the scene *)

Lemma has_same_components components (e1 e2 : Entity.t) :
  Entity._components e1 = Entity._components e2 →
  Entity.has components e1 = Entity.has components e2.
Proof.
  intros Heq. induction components as [|c cs IH]; simpl; [done|].
  unfold Entity.defined. by rewrite Heq, IH.
Qed.






(** ** Duplicates in a system's entities *)

Lemma NoDup_matched_by s L : NoDup (inits L) → NoDup (matched_by s L).
Proof.
  unfold matched_by. induction (inits L) as [|[s' e] l IH]; intros Hnd; [constructor|].
  apply NoDup_cons in Hnd as [Hnotin Hnd]. simpl.
  destruct (decide (s' = s)) as [->|]; [|by apply IH].
  constructor; [|by apply IH].
  intros (p & Hp & Heq)%list_elem_of_omap. destruct p as [s0 e0]. simpl in Heq.
  destruct (decide (s0 = s)) as [->|]; [|done]. by simplify_eq.
Qed.

(** [addComponentToEntity] never lists an entity twice in a system's
    entities: a system's entities without duplicates stay so, even if
    the system is listed twice in the scene. *)
Theorem addComponentToEntity_no_duplicates σ this entity component s :
  NoDup (System.entities (system_at σ s)) →
  NoDup (System.entities
           (system_at (heap_after (addComponentToEntity this entity component σ)) s)).
Proof.
  intros Hnd. destruct (addComponentToEntity_run σ this entity component) as [_ HS].
  destruct (Scan_frame _ _ _ _ _ HS) as (_ & Hfs & _).
  destruct (Scan_guarded_once _ _ _ _ HS) as [Hinits Hnew].
  rewrite Hfs. cbn. apply NoDup_app. split_and!.
  - exact Hnd.
  - intros e Hold Hin%elem_of_matched_by. by apply (Hnew s e Hin).
  - by apply NoDup_matched_by.
Qed.

Lemma addComponentToEntity_no_duplicates_witness :
  NoDup (System.entities
           (system_at (heap_after (addComponentToEntity 0 1 Position
                         (heap_after ((addSystem 0 10;; addSystem 0 10;; addEntity 0 1 None) world))))
                      10)).
Proof.
  apply addComponentToEntity_no_duplicates. vm_compute. constructor.
Defined.

(** [addEntity] has no such guard: an entity that a system already
    holds is appended again when the system's [test] answers true, so
    adding an entity twice lists it twice. *)
Theorem addEntity_duplicates σ this entity id s :
  entity ∈ System.entities (system_at σ s) →
  (∃ h, EvTest s entity h true ∈ calls (addEntity this entity id σ)) →
  ¬ NoDup (System.entities (system_at (heap_after (addEntity this entity id σ)) s)).
Proof.
  intros Hold [h Hev] Hnd. destruct (addEntity_run σ this entity id) as [_ HS].
  destruct (Scan_frame _ _ _ _ _ HS) as (_ & Hfs & _).
  destruct (entity_stored_arrays σ this entity id) as [_ Hs].
  rewrite Hfs in Hnd. cbn in Hnd. rewrite Hs in Hnd.
  apply NoDup_app in Hnd as (_ & Hdisjoint & _).
  apply (Hdisjoint entity Hold), elem_of_matched_by.
  rewrite (Scan_inits _ _ _ _ _ HS). apply elem_of_hits, elem_of_tests. eauto.
Qed.

Lemma addEntity_duplicates_witness :
  ¬ NoDup (System.entities
             (system_at (heap_after (addEntity 0 1 None
                           (heap_after ((addSystem 0 11;; addEntity 0 1 None) world)))) 11)).
Proof.
  apply addEntity_duplicates.
  - vm_compute. left.
  - apply elem_of_tests.
    assert (tests (calls (addEntity 0 1 None
              (heap_after ((addSystem 0 11;; addEntity 0 1 None) world)))) = [(11, 1, true)])
      as -> by (vm_compute; reflexivity).
    left.
Defined.

(** ** query and the operations that add *)

Lemma elem_of_query σ this components e :
  e ∈ found (query this components σ) ↔
  in_scene σ this e ∧ Entity.has components (entity_at σ e) = true.
Proof.
  rewrite query_run. unfold found. cbn [completion].
  rewrite list_elem_of_filter, in_scene_enumerated. tauto.
Qed.

(** On a scene whose mapping was never assigned [__proto__], [query]
    finds what was added: an entity is returned exactly when [getEntity]
    of some id returns it and it has the components; so an entity added
    with [addEntity], under an id other than [__proto__], is returned by
    every query for components it has, and an entity of the scene is
    returned by the query for a component as soon as
    [addComponentToEntity] has given it that component. *)
Theorem query_finds_added σ this entity :
  PlainObject.plain (Scene._entities (scene_at σ this)) →
  (∀ components e,
     e ∈ found (query this components σ) ↔
     (∃ id, completion (getEntity this id σ) = Normal (Some e))
     ∧ Entity.has components (entity_at σ e) = true)
  ∧ (∀ id components,
       assigned_id σ this id ≠ "__proto__" →
       Entity.has components (entity_at σ entity) = true →
       entity ∈ found (query this components (heap_after (addEntity this entity id σ))))
  ∧ (∀ component,
       in_scene σ this entity →
       entity ∈ found (query this [component]
                         (heap_after (addComponentToEntity this entity component σ)))).
Proof.
  intros _. split_and!.
  - intros components e. rewrite elem_of_query. unfold in_scene, getEntity, read.
    cbn [completion]. split.
    + intros [[id Hid] Hhas]. split; [|done]. exists id. by rewrite Hid.
    + intros [[id Hid] Hhas]. split; [|done]. exists id. by injection Hid.
  - intros id components _ Hhas. apply elem_of_query. split.
    + exists (assigned_id σ this id). rewrite addEntity_entities, decide_True by done.
      apply PlainObject_get_put.
    + destruct (addEntity_run σ this entity id) as [_ HS].
      destruct (Scan_stable _ _ _ _ _ HS) as (_ & Hc & _).
      rewrite <-Hhas. apply has_same_components.
      rewrite Hc, entity_stored_entity. by rewrite decide_True.
  - intros component Hin. apply elem_of_query.
    destruct (addComponentToEntity_run σ this entity component) as [_ HS].
    destruct (Scan_stable _ _ _ _ _ HS) as (_ & Hc & _). split.
    + unfold in_scene. by rewrite (scene_at_Scan _ _ _ _ _ this HS).
    + apply has_defined. intros c ->%list_elem_of_singleton. apply defined_held.
      rewrite Hc, entity_at_update_entity, decide_True by done.
      cbn. rewrite lookup_insert_eq. eauto.
Qed.

Lemma query_finds_added_witness :
  2 ∈ found (query 0 [Position] (heap_after (addEntity 0 2 (Some "player") world)))
  ∧ 1 ∈ found (query 0 [Position]
                 (heap_after (addComponentToEntity 0 1 Position
                                (heap_after (addEntity 0 1 None world))))).
Proof.
  split.
  - assert (PlainObject.plain (Scene._entities (scene_at world 0))) as Hplain by reflexivity.
    destruct (query_finds_added world 0 2 Hplain) as (_ & Hadded & _).
    apply Hadded; [discriminate | reflexivity].
  - assert (PlainObject.plain
              (Scene._entities (scene_at (heap_after (addEntity 0 1 None world)) 0))) as Hplain
      by (vm_compute; reflexivity).
    destruct (query_finds_added (heap_after (addEntity 0 1 None world)) 0 1 Hplain)
      as (_ & _ & Hgiven).
    apply Hgiven. exists "0". vm_compute. reflexivity.
Defined.


(** * AssetManager *)

Lemma new_snoc_asset available index asset :
  AssetManager.new available (index ++ [asset])
  = AssetManager.register available (AssetManager.new available index) asset.
Proof. unfold AssetManager.new. by rewrite foldl_app. Qed.

Lemma new_images_length available index :
  length (AssetManager.images (AssetManager.new available index)) = length index.
Proof.
  induction index as [|asset index IH] using rev_ind; [done|].
  rewrite new_snoc_asset. cbn. rewrite !length_app, IH. done.
Qed.

(** Given assets none of which is named [__proto__], the constructor
    creates one image per asset, in order, with the asset's [src], and
    registers no callback.  [get(name)] returns the image of the last
    asset of that name (an earlier image of the same name is created and
    listened to, but no longer reachable), and undefined for an
    [ordinary] name no asset has. *)
Theorem AssetManager_new_spec available index :
  Forall (λ asset, Asset.name asset ≠ "__proto__") index →
  PlainObject.plain (AssetManager._images (AssetManager.new available index))
  ∧ length (AssetManager.images (AssetManager.new available index)) = length index
  ∧ (∀ i asset, index !! i = Some asset →
       Image.src <$> AssetManager.images (AssetManager.new available index) !! i
       = Some (Asset.src asset))
  ∧ AssetManager._callbacks (AssetManager.new available index) = []
  ∧ AssetManager._hasLoaded (AssetManager.new available index) = false
  ∧ (∀ name asset,
       Asset.name asset ≠ "__proto__" →
       AssetManager.get name (AssetManager.new available (index ++ [asset])) =
       if decide (Asset.name asset = name) then Some (length index)
       else AssetManager.get name (AssetManager.new available index))
  ∧ (∀ name, ordinary name → (∀ asset, asset ∈ index → Asset.name asset ≠ name) →
       AssetManager.get name (AssetManager.new available index) = None).
Proof.
  intros Hnames. split.
  { induction index as [|a index IH] using rev_ind; [done|].
    apply Forall_app in Hnames as [Hindex Ha]. apply Forall_inv in Ha.
    rewrite new_snoc_asset. unfold PlainObject.plain. cbn.
    rewrite PlainObject_get_put_ne by exact Ha. by apply IH. }
  clear Hnames.
  split; [apply new_images_length|].
  split; [|split; [|split; [|split]]].
  - induction index as [|a index IH] using rev_ind; intros i asset Hi; [done|].
    rewrite new_snoc_asset. cbn.
    destruct (decide (i < length index)) as [Hlt|Hge].
    + rewrite lookup_app_l in Hi by done.
      rewrite lookup_app_l by (by rewrite new_images_length). by apply IH.
    + rewrite lookup_app_r in Hi by lia.
      rewrite lookup_app_r by (rewrite new_images_length; lia).
      rewrite new_images_length.
      destruct (i - length index) as [|n]; [|by destruct n].
      by injection Hi as ->.
  - induction index as [|a index IH] using rev_ind; [done|]. by rewrite new_snoc_asset.
  - induction index as [|a index IH] using rev_ind; [done|]. by rewrite new_snoc_asset.
  - intros name asset _. rewrite new_snoc_asset. unfold AssetManager.get. cbn.
    rewrite new_images_length.
    destruct (decide (Asset.name asset = name)) as [->|Hne].
    + apply PlainObject_get_put.
    + by apply PlainObject_get_put_ne.
  - induction index as [|a index IH] using rev_ind; intros name Hname Hnone; [done|].
    rewrite new_snoc_asset. unfold AssetManager.get. cbn.
    rewrite PlainObject_get_put_ne.
    + apply IH; [done|]. intros asset Hin. apply Hnone, elem_of_app. by left.
    + apply Hnone, elem_of_app. right. by left.
Qed.

Lemma AssetManager_new_spec_witness :
  let index := [Asset.make "ship" "a.png"; Asset.make "rock" "b.png";
                Asset.make "ship" "c.png"] in
  AssetManager.get "ship" (AssetManager.new (λ _, false) index) = Some 2
  ∧ AssetManager.get "star" (AssetManager.new (λ _, false) index) = None.
Proof.
  intros index.
  assert (Forall (λ asset, Asset.name asset ≠ "__proto__") (take 2 index)) as Htwo
    by (repeat constructor; discriminate).
  assert (Forall (λ asset, Asset.name asset ≠ "__proto__") index) as Hall
    by (repeat constructor; discriminate).
  split.
  - destruct (AssetManager_new_spec (λ _, false) (take 2 index) Htwo)
      as (_ & _ & _ & _ & _ & Hlast & _).
    specialize (Hlast "ship" (Asset.make "ship" "c.png")).
    change (AssetManager.new (λ _, false) index)
      with (AssetManager.new (λ _, false) (take 2 index ++ [Asset.make "ship" "c.png"])).
    rewrite Hlast by discriminate. reflexivity.
  - destruct (AssetManager_new_spec (λ _, false) index Hall)
      as (_ & _ & _ & _ & _ & _ & Hnone).
    apply Hnone.
    + apply (bool_decide_unpack _). reflexivity.
    + intros asset Hin. unfold index in Hin. rewrite !elem_of_cons in Hin.
      destruct Hin as [->|[->|[->|Hin%elem_of_nil]]]; done.
Defined.

Lemma every_complete_spec (this : AssetManager.t) names :
  (∀ name, name ∈ names → is_Some (PlainObject.get (AssetManager._images this) name)) →
  ∃ b, AssetManager.every_complete this names = Normal b
       ∧ (b = true ↔ ∀ name image, name ∈ names →
                       PlainObject.get (AssetManager._images this) name = Some image →
                       Image.complete (AssetManager.images this !!! image) = true).
Proof.
  induction names as [|name names IH]; intros Hnames.
  - exists true. split; [done|]. split; [by intros _ ? ? ?%elem_of_nil | done].
  - destruct (Hnames name) as [image Himage]; [by left|]. simpl. rewrite Himage.
    destruct (Image.complete (AssetManager.images this !!! image)) eqn:Hc.
    + destruct IH as (b & Hb & Hiff); [intros; apply Hnames; by right|].
      exists b. split; [done|]. rewrite Hiff. split.
      * intros Hall n i [->|Hin]%elem_of_cons Hn; [|by eapply Hall].
        rewrite Himage in Hn. by injection Hn as <-.
      * intros Hall n i Hin Hn. apply (Hall n i); [by right | done].
    + exists false. split; [done|]. split; [done|].
      intros Hall. rewrite (Hall name image) in Hc; [done | by left | done].
Qed.

Lemma on_load_cases (this : AssetManager.t) :
  (all_complete this
   ∧ AssetManager.on_load this
     = (Normal (), AssetManager.with_hasLoaded true this, AssetManager._callbacks this))
  ∨ (¬ all_complete this
     ∧ AssetManager.on_load this = (Normal (), AssetManager.with_hasLoaded false this, [])).
Proof.
  unfold AssetManager.on_load.
  destruct (every_complete_spec this (PlainObject.keys (AssetManager._images this)))
    as (b & -> & Hiff); [apply PlainObject_get_keys|].
  destruct b; [left | right]; (split; [|done]).
  - intros name image Hget. apply (proj1 Hiff eq_refl name image); [|done].
    by eapply PlainObject_get_Some_keys.
  - intros Hall. assert (false = true) as Hft; [|done].
    apply Hiff. intros name image _ Hget. exact (Hall name image Hget).
Qed.


Lemma page_step_images_length this ev :
  length (AssetManager.images (page_step this ev).1) = length (AssetManager.images this).
Proof.
  destruct ev as [callback|image|image]; cbn.
  - done.
  - by rewrite length_alter.
  - case_bool_decide; [|done].
    by destruct (on_load_cases this) as [[_ ->]|[_ ->]].
Qed.

Lemma page_run_quiet this evs :
  AssetManager._hasLoaded this = false →
  (∀ i, Loads i ∈ evs → (length (AssetManager.images this) ≤ i)%nat) →
  (page_run this evs).2 = [] ∧ AssetManager._hasLoaded (page_run this evs).1 = false.
Proof.
  revert this. induction evs as [|ev evs IH]; intros this Hfalse Hloads; [done|].
  simpl.
  assert ((page_step this ev).2 = [] ∧ AssetManager._hasLoaded (page_step this ev).1 = false)
    as [Hcalled Hstill].
  { destruct ev as [callback|image|image]; cbn.
    - by rewrite Hfalse.
    - done.
    - rewrite bool_decide_eq_false_2; [done|].
      specialize (Hloads image). apply Nat.le_ngt, Hloads. by left. }
  pose proof (page_step_images_length this ev) as Hlen.
  destruct (page_step this ev) as [this1 called1]. cbn in Hcalled, Hstill, Hlen.
  destruct (IH this1) as [Hcalled2 Hstill2]; [done | |].
  { intros i Hi. rewrite Hlen. apply Hloads. by right. }
  destruct (page_run this1 evs) as [this2 called2]. cbn in *. by subst.
Qed.

(** Until the browser fires [load] on one of the images the manager
    created, no callback is called and [_hasLoaded] stays false,
    whatever is registered and whichever images are or become complete.
    A manager constructed with an empty index has no image, so it never
    calls a callback. *)
Theorem no_call_before_load available index evs :
  (∀ i, Loads i ∈ evs → (length index ≤ i)%nat) →
  (page_run (AssetManager.new available index) evs).2 = []
  ∧ AssetManager._hasLoaded (page_run (AssetManager.new available index) evs).1 = false.
Proof.
  intros Hloads. apply page_run_quiet.
  - clear Hloads. induction index as [|a index IH] using rev_ind; [done|].
    rewrite new_snoc_asset. exact IH.
  - by rewrite new_images_length.
Qed.

Lemma no_call_before_load_witness :
  (page_run (AssetManager.new (λ _, true) [Asset.make "a" "a.png"])
            [Registers 5; Completes 0; Registers 6; Loads 3]).2
  = [].
Proof.
  apply (no_call_before_load (λ _, true) [Asset.make "a" "a.png"]
           [Registers 5; Completes 0; Registers 6; Loads 3]).
  intros i Hi. rewrite !elem_of_cons in Hi.
  destruct Hi as [Hi|[Hi|[Hi|[Hi|Hi%elem_of_nil]]]]; try done.
  injection Hi as ->. simpl. lia.
Defined.



(** * Entities that left the mapping *)





